(** * Parkit web front end: reservation modal, map page and map view

  A shallow embedding of the decision logic of three React components:

  - [ReserveSpotModal] (the reservation modal): slot selection,
    pricing, booking submission and the loading of time slots;
  - [MapPage] (the map page): the cancellable "nearby" query and the
    debounced bounds handler;
  - [MapView] (the map component): the markers effect that diffs the
    incoming marker identifiers against the previous ones.

  React state is a record that every handler takes and returns; a
  [setX(v)] call is the record update [setX v].  An [async] handler is
  split at its [await]: the part before it, and the part after it, which
  takes how the awaited request settled.  JavaScript numbers that hold
  hours and counts are integers of [Z]; strings are [string]; arrays are
  lists.  The state of the reservation modal carries prices as whole
  amounts of [Z]; the pricing functions themselves are also given on
  JavaScript numbers as they are, binary64 floats, in [Pricing]. *)

From Stdlib Require PrimFloat Uint63 FloatOps.
From stdpp Require Import base decidable option numbers list sorting strings
  pretty.

Local Open Scope Z_scope.

(** ** JavaScript helpers *)

Module JS.

(** Truthiness of a string: only the empty string is falsy. *)
Definition truthy (s : string) : bool := negb (String.eqb s "").

(** [arr.includes(x)] on an array of integers. *)
Definition includes (arr : list Z) (x : Z) : bool := bool_decide (x ∈ arr).

(** The comparator [(a, b) => a - b]. *)
Definition compareFn (a b : Z) : Z := a - b.

(** The order a comparator induces: [a] may stay before [b] when the
    comparator does not return a positive number. *)
Definition before (cmp : Z → Z → Z) (a b : Z) : Prop := cmp a b ≤ 0.

Global Instance before_dec cmp : RelDecision (before cmp).
Proof. intros a b. unfold before. apply _. Defined.

(** [arr.sort(cmp)]: a stable merge sort (what the engines implement). *)
Definition sort (cmp : Z → Z → Z) (arr : list Z) : list Z :=
  merge_sort (before cmp) arr.

End JS.

(** ** The reservation modal *)

Module ReserveSpotModal.

Record Vehicle := mkVehicle {
  vehicle_id : string;
  vehicle_type : string
}.

Record TimeSlot := mkTimeSlot {
  hour : Z;
  totalSpots : Z;
  isAvailable : bool;
  isPast : bool;
  basicAvailable : Z;
  coveredAvailable : Z;
  chargingAvailable : Z;
  coveredAndChargingAvailable : Z
}.

Record PricingInfo := mkPricing {
  hourlyRate : Z;
  dailyRate : Z;
  coveredHourlyRate : Z;
  coveredDailyRate : Z;
  chargingHourlyRate : Z;
  chargingDailyRate : Z
}.

Record FeatureCounts := mkFeatureCounts {
  fc_total : Z;
  fc_basic : Z;
  fc_covered : Z;
  fc_charging : Z;
  fc_coveredAndCharging : Z
}.

(** The [selectedFeatures] state. *)
Record Features := mkFeatures {
  covered : bool;
  charging : bool
}.

(** The [formData] state.  [selectedDate] is a [YYYY-MM-DD] string
    ([getTodayDate] and the date picker produce nothing else); it is kept
    as the day it names, counted in days since 1970-01-01 (see
    [daysFromCivil] below). *)
Record FormData := mkFormData {
  vehicleId : string;
  selectedDate : Z
}.

Record State := mkState {
  loading : bool;
  error : string;
  success : bool;
  vehicles : list Vehicle;
  timeSlots : list TimeSlot;
  loadingSlots : bool;
  selectedSlots : list Z;
  showPriceSummary : bool;
  pricing : PricingInfo;
  featureCounts : FeatureCounts;
  selectedFeatures : Features;
  formData : FormData
}.

(** The state setters. *)
Definition setLoading (b : bool) (st : State) : State :=
  mkState b (error st) (success st) (vehicles st) (timeSlots st)
    (loadingSlots st) (selectedSlots st) (showPriceSummary st) (pricing st)
    (featureCounts st) (selectedFeatures st) (formData st).

Definition setError (e : string) (st : State) : State :=
  mkState (loading st) e (success st) (vehicles st) (timeSlots st)
    (loadingSlots st) (selectedSlots st) (showPriceSummary st) (pricing st)
    (featureCounts st) (selectedFeatures st) (formData st).

Definition setSuccess (b : bool) (st : State) : State :=
  mkState (loading st) (error st) b (vehicles st) (timeSlots st)
    (loadingSlots st) (selectedSlots st) (showPriceSummary st) (pricing st)
    (featureCounts st) (selectedFeatures st) (formData st).

Definition setTimeSlots (l : list TimeSlot) (st : State) : State :=
  mkState (loading st) (error st) (success st) (vehicles st) l
    (loadingSlots st) (selectedSlots st) (showPriceSummary st) (pricing st)
    (featureCounts st) (selectedFeatures st) (formData st).

Definition setLoadingSlots (b : bool) (st : State) : State :=
  mkState (loading st) (error st) (success st) (vehicles st) (timeSlots st)
    b (selectedSlots st) (showPriceSummary st) (pricing st)
    (featureCounts st) (selectedFeatures st) (formData st).

(** [setSelectedSlots] takes an updater, as React's functional form
    does; [setSelectedSlots([])] is the constant updater. *)
Definition setSelectedSlots (f : list Z → list Z) (st : State) : State :=
  mkState (loading st) (error st) (success st) (vehicles st) (timeSlots st)
    (loadingSlots st) (f (selectedSlots st)) (showPriceSummary st)
    (pricing st) (featureCounts st) (selectedFeatures st) (formData st).

Definition setPricing (p : PricingInfo) (st : State) : State :=
  mkState (loading st) (error st) (success st) (vehicles st) (timeSlots st)
    (loadingSlots st) (selectedSlots st) (showPriceSummary st) p
    (featureCounts st) (selectedFeatures st) (formData st).

Definition setFeatureCounts (c : FeatureCounts) (st : State) : State :=
  mkState (loading st) (error st) (success st) (vehicles st) (timeSlots st)
    (loadingSlots st) (selectedSlots st) (showPriceSummary st) (pricing st)
    c (selectedFeatures st) (formData st).

Definition setSelectedFeatures (f : Features) (st : State) : State :=
  mkState (loading st) (error st) (success st) (vehicles st) (timeSlots st)
    (loadingSlots st) (selectedSlots st) (showPriceSummary st) (pricing st)
    (featureCounts st) f (formData st).

Definition setFormData (d : FormData) (st : State) : State :=
  mkState (loading st) (error st) (success st) (vehicles st) (timeSlots st)
    (loadingSlots st) (selectedSlots st) (showPriceSummary st) (pricing st)
    (featureCounts st) (selectedFeatures st) d.

(** *** Slot selection *)

(** The local [isFeatureAvailable] of [handleSlotClick]. *)
Definition isFeatureAvailable (f : Features) (slot : TimeSlot) : bool :=
  if covered f && charging f then
    0 <? coveredAndChargingAvailable slot
  else if covered f then
    (0 <? coveredAvailable slot) || (0 <? coveredAndChargingAvailable slot)
  else if charging f then
    (0 <? chargingAvailable slot) || (0 <? coveredAndChargingAvailable slot)
  else
    (0 <? basicAvailable slot) || (0 <? coveredAvailable slot)
    || (0 <? chargingAvailable slot)
    || (0 <? coveredAndChargingAvailable slot).

(** The updater [handleSlotClick] hands to [setSelectedSlots]. *)
Definition toggleSlot (hour : Z) (prev : list Z) : list Z :=
  if JS.includes prev hour then
    filter (λ h, h ≠ hour) prev
  else
    JS.sort JS.compareFn (prev ++ [hour]).

Definition handleSlotClick (hr : Z) (st : State) : State :=
  match List.find (λ s, hour s =? hr) (timeSlots st) with
  | None => st
  | Some slot =>
      if isPast slot then st
      else if negb (isFeatureAvailable (selectedFeatures st) slot) then st
      else setSelectedSlots (toggleSlot hr) st
  end.

(** Whether a click on [slot] passes the two guards of
    [handleSlotClick]. *)
Definition isSlotSelectable (f : Features) (slot : TimeSlot) : bool :=
  negb (isPast slot) && isFeatureAvailable f slot.

Definition getAvailableCountForFeatures (f : Features) (slot : TimeSlot) : Z :=
  if covered f && charging f then
    coveredAndChargingAvailable slot
  else if covered f then
    coveredAvailable slot + coveredAndChargingAvailable slot
  else if charging f then
    chargingAvailable slot + coveredAndChargingAvailable slot
  else
    basicAvailable slot + coveredAvailable slot + chargingAvailable slot
    + coveredAndChargingAvailable slot.

(** The [isDisabled] of a button of the slot grid. *)
Definition isDisabled (f : Features) (slot : TimeSlot) : bool :=
  negb (isAvailable slot) || isPast slot
  || (getAvailableCountForFeatures f slot =? 0).

(** *** Pricing

    The two pricing functions on the whole amounts of the state; [Pricing]
    below has them on JavaScript numbers. *)

Definition calculateTotalPrice (st : State) : Z :=
  let basePrice := hourlyRate (pricing st) in
  let basePrice :=
    if covered (selectedFeatures st)
    then basePrice + coveredHourlyRate (pricing st) else basePrice in
  let basePrice :=
    if charging (selectedFeatures st)
    then basePrice + chargingHourlyRate (pricing st) else basePrice in
  Z.of_nat (length (selectedSlots st)) * basePrice.

Definition getHourlyRate (st : State) : Z :=
  let rate := hourlyRate (pricing st) in
  let rate :=
    if covered (selectedFeatures st)
    then rate + coveredHourlyRate (pricing st) else rate in
  let rate :=
    if charging (selectedFeatures st)
    then rate + chargingHourlyRate (pricing st) else rate in
  rate.

(** *** Dates

    A [Date] object is its time value: milliseconds since the epoch, UTC.
    The host's time zone is a fixed offset [tz], in minutes east of UTC
    (no daylight-saving change is modelled). *)

Definition msPerMinute : Z := 60000.
Definition msPerHour : Z := 3600000.
Definition msPerDay : Z := 86400000.

(** The day number of the date [y]-[m]-[d] of the Gregorian calendar,
    counted from 1970-01-01. *)
Definition daysFromCivil (y m d : Z) : Z :=
  let y := if m <=? 2 then y - 1 else y in
  let era := y `div` 400 in
  let yoe := y - era * 400 in
  let mp := (m + 9) `mod` 12 in
  let doy := (153 * mp + 2) `div` 5 + d - 1 in
  let doe := yoe * 365 + yoe `div` 4 - yoe `div` 100 + doy in
  era * 146097 + doe - 719468.

(** [new Date("YYYY-MM-DD")]: a date-only string is read as UTC midnight
    of that day. *)
Definition parseDate (day : Z) : Z := day * msPerDay.

Definition LocalTime (tz t : Z) : Z := t + tz * msPerMinute.
Definition UTC (tz t : Z) : Z := t - tz * msPerMinute.

(** The day number of a time value. *)
Definition Day (t : Z) : Z := t / msPerDay.

(** The hour within the day of a time value. *)
Definition HourFromTime (t : Z) : Z := (t `mod` msPerDay) / msPerHour.

(** [d.setHours(h, 0, 0, 0)]: keeps the LOCAL day of [d] and sets the
    local time of day to [h]:00:00.000. *)
Definition setHours (tz : Z) (h : Z) (d : Z) : Z :=
  UTC tz (Day (LocalTime tz d) * msPerDay + h * msPerHour).

(** [h]:00 local time on calendar day [day]: what a booking that starts
    (or ends) at hour [h] of the chosen date denotes. *)
Definition localHourOfDay (tz day h : Z) : Z :=
  UTC tz (day * msPerDay + h * msPerHour).

(** *** Submission *)

(** The props and the session the component reads. *)
Record Env := mkEnv {
  open : bool;
  landOwnerId : string;
  accessToken : option string;
  tzOffset : Z
}.

(** The body of [POST /user/bookings]; the two times are the time values
    that [toISOString] prints. *)
Record BookingBody := mkBookingBody {
  body_vehicleId : string;
  body_landOwnerId : string;
  startTime : Z;
  endTime : Z;
  totalPrice : Z;
  hasCoveredParking : bool;
  hasChargingStation : bool
}.

(** How the awaited [axios.post] settles. *)
Inductive PostResult :=
  | Responded (status : Z)
  | AxiosError (responseError : option string)
  | OtherError.

(** What [handleSubmit] does besides updating the state. *)
Inductive Effect :=
  | HttpPost (token : string) (body : BookingBody)
  | OnSuccess
  | CloseAfter (ms : Z).

(** The [catch] and [finally] blocks of [handleSubmit]. *)
Definition handleSubmit_catch (r : PostResult) (st : State) : State :=
  match r with
  | AxiosError (Some e) =>
      if JS.truthy e then setError e st
      else setError "Failed to create booking" st
  | _ => setError "Failed to create booking" st
  end.

Definition handleSubmit_finally (st : State) : State := setLoading false st.

(** The synchronous part of [handleSubmit], up to the [await]. *)
Inductive SubmitStep :=
  | Returned (st : State)
  | Threw (st : State)
  | Awaiting (st : State) (token : string) (body : BookingBody).

Definition handleSubmit_begin (env : Env) (st0 : State) : SubmitStep :=
  let st := setError "" (setLoading true st0) in
  if negb (JS.truthy (vehicleId (formData st0))) then
    Returned (setLoading false (setError "Please select a vehicle" st))
  else if (length (selectedSlots st0) =? 0)%nat then
    Returned
      (setLoading false (setError "Please select at least one time slot" st))
  else
    let sortedSlots := JS.sort JS.compareFn (selectedSlots st0) in
    match sortedSlots !! 0%nat, sortedSlots !! (length sortedSlots - 1)%nat with
    | Some startHour, Some lastHour =>
        let endHour := lastHour + 1 in
        let selected := parseDate (selectedDate (formData st0)) in
        let startDateTime := setHours (tzOffset env) startHour selected in
        let endDateTime := setHours (tzOffset env) endHour selected in
        match accessToken env with
        | Some token =>
            if JS.truthy token then
              Awaiting st token
                (mkBookingBody (vehicleId (formData st0)) (landOwnerId env)
                   startDateTime endDateTime (calculateTotalPrice st0)
                   (covered (selectedFeatures st0))
                   (charging (selectedFeatures st0)))
            else
              Returned
                (setLoading false
                   (setError "Authentication required. Please sign in again." st))
        | None =>
            Returned
              (setLoading false
                 (setError "Authentication required. Please sign in again." st))
        end
    | _, _ =>
        (* an [undefined] hour makes an invalid date: [toISOString] throws *)
        Threw st
    end.

(** The part of [handleSubmit] after the [await], run on the state of
    that moment. *)
Definition handleSubmit_settle (r : PostResult) (st : State)
  : State * list Effect :=
  match r with
  | Responded status =>
      if status =? 201 then
        (handleSubmit_finally (setSuccess true st), [OnSuccess; CloseAfter 2000])
      else (handleSubmit_finally st, [])
  | _ => (handleSubmit_finally (handleSubmit_catch r st), [])
  end.

(** One whole run of [handleSubmit], the request settling as [r]. *)
Definition handleSubmit (env : Env) (r : PostResult) (st : State)
  : State * list Effect :=
  match handleSubmit_begin env st with
  | Returned st' => (handleSubmit_finally st', [])
  | Threw st' => (handleSubmit_finally (handleSubmit_catch OtherError st'), [])
  | Awaiting st' token body =>
      let '(st'', effs) := handleSubmit_settle r st' in
      (st'', HttpPost token body :: effs)
  end.

(** The network requests among the effects of a run. *)
Definition requests (effs : list Effect) : list Effect :=
  List.filter (λ e, match e with HttpPost _ _ => true | _ => false end) effs.

(** *** Loading the time slots *)

(** The data of a response of [GET /map/availability/slots]; a missing
    field is [None]. *)
Record SlotsResponse := mkSlotsResponse {
  resp_slots : option (list TimeSlot);
  resp_pricing : option PricingInfo;
  resp_featureCounts : option FeatureCounts
}.

Definition noPricing : PricingInfo := mkPricing 0 0 0 0 0 0.
Definition noFeatureCounts : FeatureCounts := mkFeatureCounts 0 0 0 0 0.

(** [fetchTimeSlots] up to its [await]. *)
Definition fetchTimeSlots_begin (st : State) : State := setLoadingSlots true st.

(** [fetchTimeSlots] after its [await]: [Some resp] when the request
    succeeded, [None] when it failed. *)
Definition fetchTimeSlots_settle (r : option SlotsResponse) (st : State)
  : State :=
  match r with
  | Some resp =>
      let st := setTimeSlots (default [] (resp_slots resp)) st in
      let st := setPricing (default noPricing (resp_pricing resp)) st in
      let st :=
        setFeatureCounts (default noFeatureCounts (resp_featureCounts resp)) st in
      let st := setSelectedSlots (λ _, []) st in
      setLoadingSlots false st
  | None =>
      setLoadingSlots false
        (setError "Failed to load available time slots" st)
  end.

(** The guard of the effect that calls [fetchTimeSlots]. *)
Definition slotsEffectRuns (env : Env) (st : State) : bool :=
  open env && JS.truthy (vehicleId (formData st)).

(** *** The change handlers *)

(** [onChange] of the date picker. *)
Definition onDateChange (value : Z) (st : State) : State :=
  setFormData (mkFormData (vehicleId (formData st)) value) st.

(** [onChange] of the "Covered Parking" checkbox. *)
Definition onCoveredChange (checked : bool) (st : State) : State :=
  setSelectedSlots (λ _, [])
    (setSelectedFeatures
       (mkFeatures checked (charging (selectedFeatures st))) st).

(** [onChange] of the "EV Charging" checkbox. *)
Definition onChargingChange (checked : bool) (st : State) : State :=
  setSelectedSlots (λ _, [])
    (setSelectedFeatures
       (mkFeatures (covered (selectedFeatures st)) checked) st).

(** [onChange] of a vehicle radio button (the [fetchTimeSlots] it
    schedules is the caller's to run). *)
Definition onVehicleChange (id : string) (st : State) : State :=
  setSelectedSlots (λ _, [])
    (setFormData (mkFormData id (selectedDate (formData st))) st).

(** A change of date followed through: the handler, then, when the
    effect's guard holds and the date did change, [fetchTimeSlots] whose
    request settles as [r].  The states are listed in the order they are
    rendered. *)
Definition changeDate (env : Env) (value : Z) (r : option SlotsResponse)
    (st : State) : list State :=
  let st1 := onDateChange value st in
  if slotsEffectRuns env st1
     && negb (value =? selectedDate (formData st)) then
    let st2 := fetchTimeSlots_begin st1 in
    [st1; st2; fetchTimeSlots_settle r st2]
  else [st1].

(** *** The vocabulary of the properties, and example states *)

(** The availability sum the spec relates to a feature selection. *)
Definition relevantSum (f : Features) (slot : TimeSlot) : Z :=
  match covered f, charging f with
  | true, true => coveredAndChargingAvailable slot
  | true, false => coveredAvailable slot + coveredAndChargingAvailable slot
  | false, true => chargingAvailable slot + coveredAndChargingAvailable slot
  | false, false =>
      basicAvailable slot + coveredAvailable slot + chargingAvailable slot
      + coveredAndChargingAvailable slot
  end.

(** Non-negative availability counts. *)
Definition countsNonNeg (slot : TimeSlot) : Prop :=
  0 ≤ basicAvailable slot ∧ 0 ≤ coveredAvailable slot
  ∧ 0 ≤ chargingAvailable slot ∧ 0 ≤ coveredAndChargingAvailable slot.

(** The spec's example slot: 2 covered spots, 1 covered-and-charging. *)
Definition exampleSlot : TimeSlot := mkTimeSlot 9 3 true false 0 2 0 1.

(** The invariant of the selection: strictly ascending, hence without
    duplicates. *)
Definition ascending (l : list Z) : Prop := Sorted Z.lt l.

(** A modal with one selectable slot at 10 and the hours 9 and 11
    selected. *)
Definition toggleState : State :=
  mkState false "" false [] [mkTimeSlot 10 3 true false 1 0 0 0] false
    [9; 11] false noPricing noFeatureCounts (mkFeatures false false)
    (mkFormData "v1" (daysFromCivil 2025 1 15)).

(** A browser at UTC-05:00 with a session, and a modal in which 15 January
    2025 and the hours 9, 10, 11 are chosen. *)
Definition westEnv : Env := mkEnv true "owner" (Some "token") (-300).

Definition westState : State :=
  mkState false "" false [mkVehicle "v1" "CAR"] [] false [9; 10; 11] false
    (mkPricing 5 0 2 0 3 0) noFeatureCounts (mkFeatures true true)
    (mkFormData "v1" (daysFromCivil 2025 1 15)).

(** A modal, open, in which hours 9 and 10 of 15 January 2025 are
    selected. *)
Definition openEnv : Env := mkEnv true "owner" (Some "token") 330.

Definition selectedState : State :=
  mkState false "" false [mkVehicle "v1" "CAR"]
    [mkTimeSlot 9 3 true false 1 0 0 0; mkTimeSlot 10 3 true false 1 0 0 0]
    false [9; 10] false (mkPricing 5 0 2 0 3 0) (mkFeatureCounts 3 3 0 0 0)
    (mkFeatures false false) (mkFormData "v1" (daysFromCivil 2025 1 15)).

(** *** The rest of the component *)

(** [format12Hour]: the label of an hour on the grid. *)
Definition format12Hour (hour : Z) : string :=
  if hour =? 0 then "12 AM"
  else if hour =? 12 then "12 PM"
  else if hour <? 12 then pretty hour +:+ " AM"
  else pretty (hour - 12) +:+ " PM".

(** The hour of the 12-hour clock. *)
Definition twelve (h : Z) : Z := if h `mod` 12 =? 0 then 12 else h `mod` 12.

(** The initial state of the component; [today] is the day that
    [getTodayDate] names. *)
Definition initialState (today : Z) : State :=
  mkState false "" false [] [] false [] false noPricing noFeatureCounts
    (mkFeatures false false) (mkFormData "" today).

Definition setVehicles (vs : list Vehicle) (st : State) : State :=
  mkState (loading st) (error st) (success st) vs (timeSlots st)
    (loadingSlots st) (selectedSlots st) (showPriceSummary st) (pricing st)
    (featureCounts st) (selectedFeatures st) (formData st).

Definition setShowPriceSummary (b : bool) (st : State) : State :=
  mkState (loading st) (error st) (success st) (vehicles st) (timeSlots st)
    (loadingSlots st) (selectedSlots st) b (pricing st)
    (featureCounts st) (selectedFeatures st) (formData st).

(** [fetchVehicles] after its [await]: [Some vs] for a response, [vs]
    being [response.data.user?.vehicles] when it is there, and [None] for
    a failed request (the [loadingVehicles] flag is left out of the
    state). *)
Definition fetchVehicles_settle (r : option (option (list Vehicle)))
    (st : State) : State :=
  match r with
  | Some vs => setVehicles (default [] vs) st
  | None => st
  end.

(** The callback [handleSubmit] schedules 2000 ms after a response of
    status 201 (besides calling [onClose]). *)
Definition closeAfterSuccess (today : Z) (st : State) : State :=
  setSelectedSlots (λ _, [])
    (setFormData (mkFormData "" today) (setSuccess false st)).

(** The effect that runs when the modal is closed. *)
Definition closedEffect (st : State) : State :=
  setShowPriceSummary false (setSuccess false (setError "" st)).

(** The [disabled] of the "Continue" button. *)
Definition continueDisabled (st : State) : bool :=
  (length (vehicles st) =? 0)%nat || (length (selectedSlots st) =? 0)%nat.

(** The state a run of [handleSubmit] leaves when it stops before the
    [await], or has at the [await]. *)
Definition submitState (s : SubmitStep) : State :=
  match s with
  | Returned st => handleSubmit_finally st
  | Threw st => handleSubmit_finally (handleSubmit_catch OtherError st)
  | Awaiting st _ _ => st
  end.

(** What happens to the modal: the user's actions and the requests that
    settle. *)
Inductive Action :=
  | SlotClicked (hr : Z)
  | CoveredChanged (checked : bool)
  | ChargingChanged (checked : bool)
  | VehicleChanged (id : string)
  | DateChanged (value : Z)
  | VehiclesSettled (r : option (option (list Vehicle)))
  | SlotsRequested
  | SlotsSettled (r : option SlotsResponse)
  | ContinueClicked
  | BackClicked
  | SubmitClicked (env : Env)
  | SubmitSettled (r : PostResult)
  | ClosedAfterSuccess (today : Z)
  | ModalClosed.

Definition dispatch (st : State) (a : Action) : State :=
  match a with
  | SlotClicked hr => handleSlotClick hr st
  | CoveredChanged b => onCoveredChange b st
  | ChargingChanged b => onChargingChange b st
  | VehicleChanged id => onVehicleChange id st
  | DateChanged v => onDateChange v st
  | VehiclesSettled r => fetchVehicles_settle r st
  | SlotsRequested => fetchTimeSlots_begin st
  | SlotsSettled r => fetchTimeSlots_settle r st
  | ContinueClicked =>
      if continueDisabled st then st else setShowPriceSummary true st
  | BackClicked => setShowPriceSummary false st
  | SubmitClicked env => submitState (handleSubmit_begin env st)
  | SubmitSettled r => (handleSubmit_settle r st).1
  | ClosedAfterSuccess today => closeAfterSuccess today st
  | ModalClosed => closedEffect st
  end.

(** Every selected hour is the hour of a displayed slot that the current
    features make selectable, and the selection is strictly ascending. *)
Definition selectionValid (st : State) : Prop :=
  ascending (selectedSlots st)
  ∧ ∀ h, h ∈ selectedSlots st →
      ∃ slot, List.find (λ s, hour s =? h) (timeSlots st) = Some slot
              ∧ isSlotSelectable (selectedFeatures st) slot = true.

(** An enabled grid button and the state in which it is clicked. *)
Definition gridState : State :=
  mkState false "" false [mkVehicle "v1" "CAR"]
    [mkTimeSlot 9 3 true false 1 0 0 0; mkTimeSlot 10 3 true false 0 1 0 0]
    false [9] false (mkPricing 5 0 2 0 3 0) (mkFeatureCounts 3 1 1 0 0)
    (mkFeatures false false) (mkFormData "v1" (daysFromCivil 2025 1 15)).

End ReserveSpotModal.

(** ** Prices as JavaScript numbers

    A rate is a JavaScript number, a binary64 float: a host enters it in
    steps of 0.01 and the page reads it with [parseFloat], and the modal
    shows rates and totals with [toFixed(2)].  This module has the two
    pricing functions of the reservation modal on such numbers, with the
    additions and the product of the source in the source's order; every
    one of them rounds to the nearest float.  The functions read three
    pieces of the modal's state, which they take as arguments. *)

Module Pricing.

Import PrimFloat.

Record PricingInfo := mkPricing {
  hourlyRate : float;
  dailyRate : float;
  coveredHourlyRate : float;
  coveredDailyRate : float;
  chargingHourlyRate : float;
  chargingDailyRate : float
}.

(** A whole number as a JavaScript number (for the non-negative integers
    below 2^63; those below 2^53 are floats themselves). *)
Definition wholeNumber (n : Z) : float := of_uint63 (Uint63.of_Z n).

(** [arr.length] as a number; the length of an array is below 2^32. *)
Definition lengthNumber (arr : list Z) : float :=
  wholeNumber (Z.of_nat (length arr)).

Definition calculateTotalPrice (selectedSlots : list Z)
    (selectedFeatures : ReserveSpotModal.Features) (pricing : PricingInfo)
  : float :=
  let basePrice := hourlyRate pricing in
  let basePrice :=
    if ReserveSpotModal.covered selectedFeatures
    then (basePrice + coveredHourlyRate pricing)%float else basePrice in
  let basePrice :=
    if ReserveSpotModal.charging selectedFeatures
    then (basePrice + chargingHourlyRate pricing)%float else basePrice in
  (lengthNumber selectedSlots * basePrice)%float.

Definition getHourlyRate (selectedFeatures : ReserveSpotModal.Features)
    (pricing : PricingInfo) : float :=
  let rate := hourlyRate pricing in
  let rate :=
    if ReserveSpotModal.covered selectedFeatures
    then (rate + coveredHourlyRate pricing)%float else rate in
  let rate :=
    if ReserveSpotModal.charging selectedFeatures
    then (rate + chargingHourlyRate pricing)%float else rate in
  rate.

(** *** The vocabulary of the properties, and example rates *)

(** The hourly rate of the spec: the base rate, plus the covered surcharge
    if covered is selected, plus the charging surcharge if charging is
    selected.  A surcharge that is not selected is not added (adding zero
    would turn a rate of -0 into +0). *)
Definition surchargedRate (f : ReserveSpotModal.Features) (p : PricingInfo)
  : float :=
  match ReserveSpotModal.covered f, ReserveSpotModal.charging f with
  | true, true =>
      (hourlyRate p + coveredHourlyRate p + chargingHourlyRate p)%float
  | true, false => (hourlyRate p + coveredHourlyRate p)%float
  | false, true => (hourlyRate p + chargingHourlyRate p)%float
  | false, false => hourlyRate p
  end.

(** The rates of the spec's example: 5 an hour, 2 more for a covered spot,
    3 more for a charger. *)
Definition exampleRates : PricingInfo := mkPricing 5 0 2 0 3 0.

(** An hourly rate with cents: the float nearest to 1.01. *)
Definition cents : PricingInfo :=
  mkPricing 0x1.028f5c28f5c29p+0 0 0 0 0 0.

End Pricing.

(** ** The map page

    The page keeps two mutable references besides its React state: the
    [AbortController] of the latest "nearby" request and the identifier
    of the latest debounce timer.  The browser is part of the model: which
    controllers have been aborted, which requests await their answer,
    which timeouts are pending, and the clock (in milliseconds).

    Controllers and timers are named by numbers taken from two
    counters; in a reference, [Some n] is a controller object or a timer
    identifier (never zero in a browser), hence truthy.

    Coordinates are floating-point numbers; they are kept abstract, and so
    are the two floating-point computations of [handleBoundsChange]: the
    centre of the bounds and the haversine radius [max(ceil(R c), 5)]. *)

Module MapPage.

Local Open Scope nat_scope.

Section Model.

Context {Coord : Type}.

Record LatLng := mkLatLng {
  lat : Coord;
  lng : Coord
}.

Record Bounds := mkBounds {
  ne : LatLng;
  sw : LatLng
}.

Variable boundsCenter : Bounds → LatLng.
Variable boundsRadiusKm : Bounds → Coord.

(** The parameters of [GET /map/nearby]. *)
Record NearbyQuery := mkNearbyQuery {
  q_lat : Coord;
  q_lng : Coord;
  q_radiusKm : Coord;
  q_limit : nat
}.

(** A place as the backend sends it (a few of its fields). *)
Record BackendPlace := mkBackendPlace {
  bp_id : string;
  bp_name : string;
  bp_address : option string;
  bp_hasCharging : bool
}.

Inductive PlaceType := parking | charging.

Record Place := mkPlace {
  place_id : string;
  place_name : string;
  place_type : PlaceType;
  place_address : string
}.

(** The mapping of a backend place to a [Place]. *)
Definition enhance (p : BackendPlace) : Place :=
  mkPlace (bp_id p) (bp_name p)
    (if bp_hasCharging p then charging else parking)
    (match bp_address p with
     | Some a => if JS.truthy a then a else "Address not available"
     | None => "Address not available"
     end).

Inductive LogEntry :=
  | Log (msg : string)
  | LogError (msg : string).

Record Timer := mkTimer {
  timer_id : nat;
  deadline : nat;
  timer_bounds : Bounds
}.

Record State := mkState {
  places : list Place;
  loading : bool;
  abortControllerRef : option nat;
  debounceTimerRef : option nat;
  aborted : list nat;
  inflight : list (nat * NearbyQuery);
  timers : list Timer;
  clock : nat;
  nextController : nat;
  nextTimer : nat;
  sent : list NearbyQuery;
  console : list LogEntry
}.

(** [controller.abort()]. *)
Definition abort (c : nat) (st : State) : State :=
  mkState (places st) (loading st) (abortControllerRef st)
    (debounceTimerRef st) (c :: aborted st) (inflight st) (timers st)
    (clock st) (nextController st) (nextTimer st) (sent st) (console st).

(** [clearTimeout(t)]. *)
Definition clearTimeout (t : nat) (st : State) : State :=
  mkState (places st) (loading st) (abortControllerRef st)
    (debounceTimerRef st) (aborted st) (inflight st)
    (filter (λ tm, timer_id tm ≠ t) (timers st))
    (clock st) (nextController st) (nextTimer st) (sent st) (console st).

Definition setPlaces (ps : list Place) (st : State) : State :=
  mkState ps (loading st) (abortControllerRef st)
    (debounceTimerRef st) (aborted st) (inflight st) (timers st)
    (clock st) (nextController st) (nextTimer st) (sent st) (console st).

Definition setLoading (b : bool) (st : State) : State :=
  mkState (places st) b (abortControllerRef st)
    (debounceTimerRef st) (aborted st) (inflight st) (timers st)
    (clock st) (nextController st) (nextTimer st) (sent st) (console st).

Definition consoleAdd (e : LogEntry) (st : State) : State :=
  mkState (places st) (loading st) (abortControllerRef st)
    (debounceTimerRef st) (aborted st) (inflight st) (timers st)
    (clock st) (nextController st) (nextTimer st) (sent st)
    (console st ++ [e]).

(** [fetchNearbyPlaces] up to its [await]: abort the previous request,
    make a new controller, and send the request with its signal. *)
Definition fetchNearbyPlaces_begin (q : NearbyQuery) (st : State) : State :=
  let st :=
    match abortControllerRef st with
    | Some c => abort c st
    | None => st
    end in
  let c := nextController st in
  mkState (places st) true (Some c)
    (debounceTimerRef st) (aborted st) (inflight st ++ [(c, q)]) (timers st)
    (clock st) (S c) (nextTimer st) (sent st ++ [q]) (console st).

(** What the network gives back for a request. *)
Inductive Answer :=
  | Ok (ps : list BackendPlace)
  | Failed.

(** [fetchNearbyPlaces] after its [await], for the request sent with the
    signal of controller [c].  axios rejects a request whose signal has
    been aborted with a cancellation, whatever the network did. *)
Definition fetchNearbyPlaces_settle (c : nat) (a : Answer) (st : State)
  : State :=
  if bool_decide (c ∈ aborted st) then
    setLoading false (consoleAdd (Log "Request cancelled") st)
  else
    match a with
    | Ok ps => setLoading false (setPlaces (map enhance ps) st)
    | Failed =>
        setLoading false
          (consoleAdd (LogError "Error fetching nearby places") st)
    end.

(** The query the debounced callback computes from the bounds. *)
Definition boundsQuery (b : Bounds) : NearbyQuery :=
  mkNearbyQuery (lat (boundsCenter b)) (lng (boundsCenter b))
    (boundsRadiusKm b) 50.

(** [handleBoundsChange]: clear the previous timer and set a new one,
    500 ms from now. *)
Definition handleBoundsChange (b : Bounds) (st : State) : State :=
  let st :=
    match debounceTimerRef st with
    | Some t => clearTimeout t st
    | None => st
    end in
  let t := nextTimer st in
  mkState (places st) (loading st) (abortControllerRef st)
    (Some t) (aborted st) (inflight st)
    (timers st ++ [mkTimer t (clock st + 500) b])
    (clock st) (nextController st) (S t) (sent st) (console st).

(** The clean-up on unmount. *)
Definition unmount (st : State) : State :=
  let st :=
    match debounceTimerRef st with
    | Some t => clearTimeout t st
    | None => st
    end in
  match abortControllerRef st with
  | Some c => abort c st
  | None => st
  end.

(** Time passes: the clock advances by [ms], and the pending timeouts
    that are due run their callback, oldest first (all delays are equal,
    so the oldest is the first due). *)
Definition setClockTimers (now : nat) (tms : list Timer) (st : State) : State :=
  mkState (places st) (loading st) (abortControllerRef st)
    (debounceTimerRef st) (aborted st) (inflight st) tms
    now (nextController st) (nextTimer st) (sent st) (console st).

Definition elapse (ms : nat) (st : State) : State :=
  let now := clock st + ms in
  let due := filter (λ tm, deadline tm ≤ now) (timers st) in
  let pending := filter (λ tm, ¬ deadline tm ≤ now) (timers st) in
  foldl (λ s tm, fetchNearbyPlaces_begin (boundsQuery (timer_bounds tm)) s)
    (setClockTimers now pending st) due.

(** The network settles the request of controller [c], if it still
    awaits its answer. *)
Definition setInflight (l : list (nat * NearbyQuery)) (st : State) : State :=
  mkState (places st) (loading st) (abortControllerRef st)
    (debounceTimerRef st) (aborted st) l (timers st)
    (clock st) (nextController st) (nextTimer st) (sent st) (console st).

Definition answer (c : nat) (a : Answer) (st : State) : State :=
  if bool_decide (c ∈ (inflight st).*1) then
    fetchNearbyPlaces_settle c a
      (setInflight (filter (λ r, r.1 ≠ c) (inflight st)) st)
  else st.

(** What can happen to the page. *)
Inductive Event :=
  | BoundsSettled (b : Bounds)
  | NearbySearch (q : NearbyQuery)
  | Answered (c : nat) (a : Answer)
  | Elapsed (ms : nat)
  | Unmounted.

Definition step (st : State) (e : Event) : State :=
  match e with
  | BoundsSettled b => handleBoundsChange b st
  | NearbySearch q => fetchNearbyPlaces_begin q st
  | Answered c a => answer c a st
  | Elapsed ms => elapse ms st
  | Unmounted => unmount st
  end.

Definition run (evs : list Event) (st : State) : State := foldl step st evs.

(** The events of [evs] that settle the request of controller [c]. *)
Definition answersOf (c : nat) (evs : list Event) : list Event :=
  List.filter
    (λ e, match e with Answered c' _ => Nat.eqb c' c | _ => false end) evs.

(** A burst of bounds changes: each is followed by a pause. *)
Fixpoint burst (l : list (Bounds * nat)) : list Event :=
  match l with
  | [] => []
  | (b, gap) :: l' => BoundsSettled b :: Elapsed gap :: burst l'
  end.

(** Every pending timeout is the one [debounceTimerRef] names. *)
Definition timersNamed (st : State) : Prop :=
  ∀ tm, tm ∈ timers st → debounceTimerRef st = Some (timer_id tm).

(** *** The vocabulary of the properties *)

(** What holds of a controller [c] from the moment its request is sent:
    it is aborted, or it is still the latest one; and the requests sent
    since are counted by the controllers made since ([n0] requests had
    been sent when [c]'s was). *)
Definition tracked (c n0 : nat) (s : State) : Prop :=
  (c ∈ aborted s ∨ (abortControllerRef s = Some c ∧ nextController s = S c))
  ∧ length (sent s) + S c = nextController s + n0.

End Model.

(** *** An example page

    Coordinates in micro-degrees, the centre as the midpoint, and a
    radius of 5 km stand in for the floating-point computations. *)

Definition midpoint (b : @Bounds Z) : @LatLng Z :=
  mkLatLng ((lat (ne b) + lat (sw b)) `div` 2)%Z
    ((lng (ne b) + lng (sw b)) `div` 2)%Z.

Definition fiveKm (b : @Bounds Z) : Z := 5%Z.

Definition initial : @State Z :=
  mkState [] false None None [] [] [] 0 0 1 [] [].

Definition bounds1 : @Bounds Z :=
  mkBounds (mkLatLng 10%Z 10%Z) (mkLatLng 0%Z 0%Z).
Definition bounds2 : @Bounds Z :=
  mkBounds (mkLatLng 12%Z 12%Z) (mkLatLng 2%Z 2%Z).
Definition bounds3 : @Bounds Z :=
  mkBounds (mkLatLng 14%Z 14%Z) (mkLatLng 4%Z 4%Z).

Definition queryA : @NearbyQuery Z := mkNearbyQuery 1%Z 1%Z 10%Z 50.
Definition queryB : @NearbyQuery Z := mkNearbyQuery 2%Z 2%Z 10%Z 50.
Definition placeA : BackendPlace := mkBackendPlace "a" "Lot A" None false.
Definition placeB : BackendPlace := mkBackendPlace "b" "Lot B" None true.

(** *** The rest of the page *)

Section Route.

Context {Coord : Type}.

(** [fetchPlacesAlongRoute] after its [await] (before it the function
    changes nothing: it neither touches [abortControllerRef] nor passes a
    signal).  The places are mapped as in [fetchNearbyPlaces], but for the
    text of their distance, which [Place] leaves out. *)
Definition fetchPlacesAlongRoute_settle (a : Answer) (st : @State Coord)
  : @State Coord :=
  match a with
  | Ok ps => setLoading false (setPlaces (map enhance ps) st)
  | Failed =>
      setLoading false
        (consoleAdd (LogError "Error fetching places along route") st)
  end.

(** Every request that awaits its answer has been aborted, but for the
    one [abortControllerRef] names. *)
Definition oneLive (st : @State Coord) : Prop :=
  ∀ c, c ∈ (inflight st).*1 →
       c ∈ aborted st ∨ abortControllerRef st = Some c.

(** The events in which the page itself does nothing: time passes, or the
    network answers a nearby request. *)
Definition passive (e : @Event Coord) : Prop :=
  match e with
  | Answered _ _ | Elapsed _ => True
  | _ => False
  end.

(** After the clean-up no timeout is pending and every request that
    awaits its answer has been aborted. *)
Definition halted (s : @State Coord) : Prop :=
  timers s = [] ∧ ∀ c, c ∈ (inflight s).*1 → c ∈ aborted s.

(** At most one timeout is pending, and [debounceTimerRef] names it. *)
Definition oneTimer (s : @State Coord) : Prop :=
  timers s = []
  ∨ ∃ tm, timers s = [tm] ∧ debounceTimerRef s = Some (timer_id tm).

(** Controllers are numbered as they are made: the aborted ones and the
    one [abortControllerRef] names are older than the next. *)
Definition controllersMade (s : @State Coord) : Prop :=
  (∀ c, c ∈ aborted s → c < nextController s)
  ∧ (∀ c, abortControllerRef s = Some c → c < nextController s).

(** The number 10, the default [radiusKm] of [fetchNearbyPlaces]. *)
Variable defaultRadiusKm : Coord.

(** The continuation of a geocoding request.  [handleLocationSelect] and
    the effect on the search parameters wait for
    [getCoordinatesFromPlaceId] and, when it gives coordinates, call
    [setMapCenter] (outside the model) and [fetchNearbyPlaces] around
    them.  The geocoding request takes no signal and sits in no reference:
    the clean-up on unmount does not reach it. *)
Definition geocoded (coords : option (@LatLng Coord)) (st : @State Coord)
  : @State Coord :=
  match coords with
  | Some c =>
      fetchNearbyPlaces_begin
        (mkNearbyQuery (lat c) (lng c) defaultRadiusKm 50) st
  | None => st
  end.

(** [fetchNearbyPlaces] up to its [await], with what the [abort()] sets
    off.  axios rejects the promise of a request when its signal is
    aborted, without waiting for the network; the [catch] and [finally] of
    the call that awaited that request run as soon as the aborting call
    reaches its own [await], after its [setLoading(true)].  ([step] lets a
    cancelled request settle when its [Answered] event comes, which is
    later; the two differ in [loading], [console] and [inflight] only.) *)
Definition fetchNearbyPlaces_send (q : @NearbyQuery Coord) (st : @State Coord)
  : @State Coord :=
  let st' := fetchNearbyPlaces_begin q st in
  match abortControllerRef st with
  | Some c => answer c Failed st'
  | None => st'
  end.

End Route.

End MapPage.

(** ** The map view *)

Module MapView.

Local Open Scope nat_scope.

Record Marker := mkMarker {
  id : string;
  name : string;
  pricePerHour : option Z
}.

(** A JavaScript [Set] of strings: its elements in insertion order,
    without duplicates. *)
Definition SetAdd (s : list string) (x : string) : list string :=
  if bool_decide (x ∈ s) then s else s ++ [x].

Definition SetOf (l : list string) : list string := foldl SetAdd [] l.

Definition SetHas (s : list string) (x : string) : bool := bool_decide (x ∈ s).

(** [arr.indexOf(x)]; [None] stands for [-1]. *)
Definition indexOf (arr : list string) (x : string) : option nat :=
  fst <$> list_find (λ y, y = x) arr.

(** The animation of an overlay's element. *)
Inductive Animation :=
  | NoAnimation
  | PopIn (delayIndex : option nat).

(** An overlay put on the map: its marker and its entrance animation,
    [markerPopIn] delayed by [delayIndex * 0.05] seconds. *)
Record Overlay := mkOverlay {
  markerData : Marker;
  animation : Animation
}.

Record State := mkState {
  mapReady : bool;
  markersRef : list Overlay;
  previousMarkerIdsRef : list string
}.

(** The effect that runs when the [markers] prop changes. *)
Definition markersEffect (markers : list Marker) (st : State) : State :=
  if negb (mapReady st) then st
  else
    let currentMarkerIds := SetOf (id <$> markers) in
    let newMarkerIds :=
      SetOf (filter (λ i, i ∉ previousMarkerIdsRef st) currentMarkerIds) in
    let overlays :=
      (λ m,
         let isNewMarker := SetHas newMarkerIds (id m) in
         mkOverlay m
           (if isNewMarker then PopIn (indexOf newMarkerIds (id m))
            else NoAnimation)) <$> markers in
    mkState (mapReady st) overlays currentMarkerIds.

(** Whether an overlay was marked as new. *)
Definition isNew (o : Overlay) : bool :=
  match animation o with
  | PopIn _ => true
  | NoAnimation => false
  end.

(** *** The vocabulary of the properties, and an example *)

(** The identifiers the effect finds new: those of the markers, in order
    and once each, that the previous set lacks. *)
Definition newIds (markers : list Marker) (st : State) : list string :=
  SetOf (filter (λ i, i ∉ previousMarkerIdsRef st) (SetOf (id <$> markers))).

(** The overlays marked as new. *)
Definition newOverlays (st : State) : list Overlay :=
  filter (λ o, isNew o = true) (markersRef st).

(** Three places, then two of them again: nothing is marked as new the
    second time. *)
Definition ready : State := mkState true [] [].

Definition threeMarkers : list Marker :=
  [mkMarker "a" "Lot A" (Some 5%Z); mkMarker "b" "Lot B" None;
   mkMarker "c" "Lot C" (Some 7%Z)].

End MapView.

(** ** The sign-in route (NextAuth options) *)

Module Auth.

(** The credentials NextAuth passes to [authorize]; a missing field is
    [None]. *)
Record Credentials := mkCredentials {
  cred_email : option string;
  cred_password : option string
}.

Record BackendUser := mkBackendUser {
  bu_id : string;
  bu_email : string;
  bu_name : string
}.

(** The [data] of the answer of [POST /auth/signin]. *)
Record SigninData := mkSigninData {
  data_user : option BackendUser;
  data_token : option string
}.

(** How the awaited [axios.post] settles. *)
Inductive SigninResult :=
  | SigninResponded (d : SigninData)
  | SigninAxiosError (responseError : option string)
  | SigninOtherError.

(** The user [authorize] returns. *)
Record User := mkUser {
  user_id : string;
  user_email : string;
  user_name : string;
  user_token : string
}.

(** What [authorize] ends with: a user, [null], or an [Error] thrown. *)
Inductive Outcome :=
  | Authorized (u : User)
  | Refused
  | Thrown (message : string).

(** The body of the request [authorize] posts. *)
Record SigninRequest := mkSigninRequest {
  req_email : string;
  req_password : string
}.

Definition opt_truthy (o : option string) : bool :=
  match o with
  | Some s => JS.truthy s
  | None => false
  end.

(** [authorize(credentials)], the request settling as [r]: the outcome
    and the requests made. *)
Definition authorize (credentials : option Credentials) (r : SigninResult)
  : Outcome * list SigninRequest :=
  match credentials with
  | Some (mkCredentials (Some email) (Some password)) =>
      if JS.truthy email && JS.truthy password then
        (match r with
         | SigninResponded d =>
             match data_user d, data_token d with
             | Some u, Some token =>
                 if JS.truthy token then
                   Authorized (mkUser (bu_id u) (bu_email u) (bu_name u) token)
                 else Refused
             | _, _ => Refused
             end
         | SigninAxiosError (Some e) =>
             if JS.truthy e then Thrown e else Thrown "Authentication failed"
         | _ => Thrown "Authentication failed"
         end,
         [mkSigninRequest email password])
      else (Thrown "Email and password are required", [])
  | _ => (Thrown "Email and password are required", [])
  end.

(** The two fields the callbacks add to the JWT. *)
Record Token := mkToken {
  token_id : option string;
  token_accessToken : option string
}.

(** The [jwt] callback; [user] is there at sign-in only. *)
Definition jwt (token : Token) (user : option User) : Token :=
  match user with
  | Some u => mkToken (Some (user_id u)) (Some (user_token u))
  | None => token
  end.

Record SessionUser := mkSessionUser {
  su_id : option string;
  su_email : string
}.

Record Session := mkSession {
  session_user : option SessionUser;
  accessToken : option string
}.

(** The [session] callback. *)
Definition session (s : Session) (token : Token) : Session :=
  match session_user s with
  | Some u =>
      mkSession (Some (mkSessionUser (token_id token) (su_email u)))
        (token_accessToken token)
  | None => s
  end.

(** The token after a sign-in as [u] and [n] later calls of [jwt]. *)
Definition tokenAfter (t0 : Token) (u : User) (n : nat) : Token :=
  Nat.iter n (λ t, jwt t None) (jwt t0 (Some u)).

End Auth.

(** ** The login modal *)

Module LoginModal.

Record FormData := mkFormData {
  name : string;
  email : string;
  password : string
}.

Record State := mkState {
  isSignUp : bool;
  loading : bool;
  error : string;
  formData : FormData
}.

Definition setLoading (b : bool) (st : State) : State :=
  mkState (isSignUp st) b (error st) (formData st).

Definition setError (e : string) (st : State) : State :=
  mkState (isSignUp st) (loading st) e (formData st).

(** Something thrown by an awaited call: an [Error] with its message, or
    another value. *)
Inductive Exception :=
  | ErrorWith (message : string)
  | NotAnError.

(** How [fetch("/api/auth/signup")] and the reading of its body settle:
    the response's [ok] and its [data.error], or a failure. *)
Inductive SignupResult :=
  | SignupResponded (ok : bool) (dataError : option string)
  | SignupThrew (e : Exception).

(** How [signIn("credentials", ...)] settles: its result's [error] (none
    also when the result is [undefined]), or a failure. *)
Inductive SignInResult :=
  | SignInReturned (resultError : option string)
  | SignInThrew (e : Exception).

Inductive Effect :=
  | PostSignup (body : FormData)
  | SignIn (email password : string)
  | Close
  | Reload.

Definition opt_truthy (o : option string) : option string :=
  match o with
  | Some s => if JS.truthy s then Some s else None
  | None => None
  end.

(** The [catch] and [finally] of [handleSubmit]. *)
Definition caught (e : Exception) (st : State) : State :=
  setLoading false
    (setError (match e with
               | ErrorWith m => m
               | NotAnError => "An error occurred"
               end) st).

(** The sign-in step, shared by the two branches. *)
Definition signInStep (r : SignInResult) (st : State)
  : State * list Effect :=
  let call := SignIn (email (formData st)) (password (formData st)) in
  match r with
  | SignInReturned e =>
      match opt_truthy e with
      | Some msg => (caught (ErrorWith msg) st, [call])
      | None => (setLoading false st, [call; Close; Reload])
      end
  | SignInThrew e => (caught e st, [call])
  end.

(** [handleSubmit], the sign-up request settling as [up] and the sign-in
    as [si]. *)
Definition handleSubmit (up : SignupResult) (si : SignInResult) (st0 : State)
  : State * list Effect :=
  let st := setError "" (setLoading true st0) in
  if isSignUp st0 then
    match up with
    | SignupResponded ok dataError =>
        if ok then
          let '(st', effs) := signInStep si st in
          (st', PostSignup (formData st0) :: effs)
        else
          (caught (ErrorWith (default "Signup failed" (opt_truthy dataError)))
             st,
           [PostSignup (formData st0)])
    | SignupThrew e => (caught e st, [PostSignup (formData st0)])
    end
  else signInStep si st.

End LoginModal.

(** ** The modal that edits a parking spot *)

Module EditParkingSpotModal.

Inductive SpotType := car | bike.

(** The [spot] prop; [charging] may be missing. *)
Record Spot := mkSpot {
  spot_id : string;
  spot_charging : option bool;
  spot_covered : bool
}.

Record FormData := mkFormData {
  charging : bool;
  covered : bool
}.

(** The effect that runs when the modal opens. *)
Definition openEffect (spot : Spot) : FormData :=
  mkFormData (default false (spot_charging spot)) (spot_covered spot).

(** The endpoint, below the backend's address. *)
Definition endpoint (type : SpotType) (spot : Spot) : string :=
  match type with
  | car => "/landOwner/carParking/" +:+ spot_id spot
  | bike => "/landOwner/bikeParking/" +:+ spot_id spot
  end.

(** The JSON body: a bike spot's has no [charging]. *)
Record Body := mkBody {
  body_charging : option bool;
  body_covered : bool
}.

Definition body (type : SpotType) (fd : FormData) : Body :=
  match type with
  | car => mkBody (Some (charging fd)) (covered fd)
  | bike => mkBody None (covered fd)
  end.

(** How the awaited [fetch] settles: a response, [ok] or not, with the
    [error] of its JSON body ([None] when it has none, [BadBody] when the
    body cannot be read), or a failure. *)
Inductive PatchResult :=
  | PatchOk
  | PatchRejected (dataError : option string)
  | PatchBadBody
  | PatchFailed.

Inductive Effect :=
  | Patch (url : string) (b : Body)
  | OnSuccess
  | OnClose
  | Alert (message : string)
  | ConsoleError.

(** [handleSubmit], the request settling as [r]: the effects in order and
    the final value of [loading]. *)
Definition handleSubmit (type : SpotType) (spot : Spot) (fd : FormData)
    (r : PatchResult) : list Effect * bool :=
  let request := Patch (endpoint type spot) (body type fd) in
  (match r with
   | PatchOk => [request; OnSuccess; OnClose]
   | PatchRejected (Some e) =>
       [request;
        Alert (if JS.truthy e then e else "Failed to update parking spot")]
   | PatchRejected None => [request; Alert "Failed to update parking spot"]
   | PatchBadBody | PatchFailed =>
       [request; ConsoleError; Alert "Failed to update parking spot"]
   end, false).

(** The texts of the alerts among the effects. *)
Definition alerts (effs : list Effect) : list string :=
  omap (λ e, match e with Alert m => Some m | _ => None end) effs.

End EditParkingSpotModal.

(** * Properties of the reservation modal *)

Module ReserveSpotModalSpec.

Import ReserveSpotModal.

Lemma getAvailableCountForFeatures_sum f slot :
  getAvailableCountForFeatures f slot = relevantSum f slot.
Proof.
  unfold getAvailableCountForFeatures, relevantSum.
  by destruct (covered f), (charging f).
Qed.

(** [isSlotSelectable] is the guard of [handleSlotClick]: a click on an
    hour toggles it exactly when the first slot of that hour is
    selectable. *)
Lemma handleSlotClick_guard hr st :
  handleSlotClick hr st =
  match List.find (λ s, hour s =? hr) (timeSlots st) with
  | Some slot =>
      if isSlotSelectable (selectedFeatures st) slot
      then setSelectedSlots (toggleSlot hr) st else st
  | None => st
  end.
Proof.
  unfold handleSlotClick, isSlotSelectable.
  destruct (List.find _ _) as [slot|]; [|done].
  by destruct (isPast slot), (isFeatureAvailable _ slot).
Qed.

Lemma isFeatureAvailable_sum f slot :
  countsNonNeg slot →
  isFeatureAvailable f slot = (0 <? relevantSum f slot).
Proof.
  intros (Hb & Hc & Hg & Hcg).
  unfold isFeatureAvailable, relevantSum.
  apply eq_true_iff_eq.
  destruct (covered f), (charging f); simpl;
    rewrite ?orb_true_iff, !Z.ltb_lt; lia.
Qed.

(** C1. For a slot with non-negative availability counts and any feature
    selection, the slot is selectable (a click on it passes the guards of
    [handleSlotClick], which then toggles its hour) iff it is not past and
    the relevant availability sum is positive: covered-and-charging when
    both features are on, covered + covered-and-charging when covered only,
    charging + covered-and-charging when charging only, all four counts
    when neither is on.  The count the grid shows,
    [getAvailableCountForFeatures], is that same sum. *)
Theorem isSlotSelectable_iff (f : Features) (slot : TimeSlot) :
  countsNonNeg slot →
  (isSlotSelectable f slot = true
   ↔ isPast slot = false ∧ 0 < relevantSum f slot)
  ∧ getAvailableCountForFeatures f slot = relevantSum f slot
  ∧ (∀ st hr,
       selectedFeatures st = f →
       List.find (λ s, hour s =? hr) (timeSlots st) = Some slot →
       handleSlotClick hr st
       = if isSlotSelectable f slot
         then setSelectedSlots (toggleSlot hr) st else st).
Proof.
  intros Hnn. split_and!.
  - unfold isSlotSelectable.
    rewrite andb_true_iff, negb_true_iff, (isFeatureAvailable_sum _ _ Hnn).
    by rewrite Z.ltb_lt.
  - apply getAvailableCountForFeatures_sum.
  - intros st hr <- Hfind. by rewrite handleSlotClick_guard, Hfind.
Qed.

Lemma isSlotSelectable_iff_witness :
  countsNonNeg exampleSlot
  ∧ ((isSlotSelectable (mkFeatures true false) exampleSlot = true
      ↔ isPast exampleSlot = false
        ∧ 0 < relevantSum (mkFeatures true false) exampleSlot)
     ∧ getAvailableCountForFeatures (mkFeatures true false) exampleSlot
       = relevantSum (mkFeatures true false) exampleSlot).
Proof.
  assert (Hnn : countsNonNeg exampleSlot) by (unfold countsNonNeg; simpl; lia).
  split; [exact Hnn|].
  pose proof (isSlotSelectable_iff (mkFeatures true false) exampleSlot Hnn)
    as (Hiff & Hsum & _).
  exact (conj Hiff Hsum).
Defined.

(** The two cases the spec asks to verify on its example slot. *)
Lemma exampleSlot_selectable :
  isSlotSelectable (mkFeatures true false) exampleSlot = true
  ∧ isSlotSelectable (mkFeatures false true) exampleSlot = true.
Proof. by vm_compute. Qed.

(** A button of the grid is enabled exactly for the selectable slots that
    the backend flags [isAvailable]. *)
Lemma isDisabled_selectable f slot :
  countsNonNeg slot →
  isDisabled f slot = negb (isAvailable slot && isSlotSelectable f slot).
Proof.
  intros Hnn. unfold isDisabled, isSlotSelectable.
  rewrite (isFeatureAvailable_sum _ _ Hnn), getAvailableCountForFeatures_sum.
  assert (0 ≤ relevantSum f slot) as Hs.
  { destruct Hnn as (? & ? & ? & ?). unfold relevantSum.
    destruct (covered f), (charging f); lia. }
  destruct (isAvailable slot), (isPast slot); simpl; try done.
  destruct (Z.eqb_spec (relevantSum f slot) 0) as [->|Hne]; [done|].
  symmetry. apply negb_false_iff, Z.ltb_lt. lia.
Qed.

(** *** Toggling hours *)

Section sorting.

Local Instance before_total : Total (JS.before JS.compareFn).
Proof. intros a b. unfold JS.before, JS.compareFn. lia. Qed.

Local Instance before_trans : Transitive (JS.before JS.compareFn).
Proof. intros a b c. unfold JS.before, JS.compareFn. lia. Qed.

Lemma StronglySorted_weaken {A} (R R' : relation A) l :
  (∀ x y, R x y → R' x y) → StronglySorted R l → StronglySorted R' l.
Proof.
  intros HR. induction 1 as [|x l _ IH Hx]; constructor; [done|].
  eapply Forall_impl; [exact Hx|]. auto.
Qed.

Lemma ascending_strongly l : ascending l ↔ StronglySorted Z.lt l.
Proof.
  split; [apply Sorted_StronglySorted, _|apply StronglySorted_Sorted].
Qed.

Lemma ascending_NoDup l : ascending l → NoDup l.
Proof.
  rewrite ascending_strongly.
  induction 1 as [|x l _ IH Hx]; constructor; [|done].
  rewrite Forall_forall in Hx. intros Hin. specialize (Hx _ Hin). lia.
Qed.

Lemma le_NoDup_ascending l : StronglySorted Z.le l → NoDup l → ascending l.
Proof.
  rewrite ascending_strongly.
  induction 1 as [|x l _ IH Hx]; intros Hnd; [constructor|].
  apply NoDup_cons in Hnd as [Hx' Hnd]. constructor; [by apply IH|].
  rewrite Forall_forall in Hx |- *. intros y Hy.
  specialize (Hx _ Hy). assert (x ≠ y) by (by intros ->). lia.
Qed.

Lemma sort_Permutation l : JS.sort JS.compareFn l ≡ₚ l.
Proof. apply merge_sort_Permutation. Qed.

Lemma sort_le l : StronglySorted Z.le (JS.sort JS.compareFn l).
Proof.
  eapply StronglySorted_weaken; [|apply (StronglySorted_merge_sort _)].
  intros x y. unfold JS.before, JS.compareFn. lia.
Qed.

Lemma sort_ascending l : NoDup l → ascending (JS.sort JS.compareFn l).
Proof.
  intros Hnd. apply le_NoDup_ascending; [apply sort_le|].
  by rewrite sort_Permutation.
Qed.

Lemma filter_ascending (P : Z → Prop) `{!∀ x, Decision (P x)} l :
  ascending l → ascending (filter P l).
Proof.
  rewrite !ascending_strongly.
  induction 1 as [|x l _ IH Hx]; [constructor|].
  rewrite filter_cons. destruct (decide (P x)); [|done].
  constructor; [done|].
  rewrite Forall_forall in Hx |- *.
  intros y [_ Hy]%list_elem_of_filter. by apply Hx.
Qed.

(** Two strictly ascending lists with the same elements are equal. *)
Lemma ascending_unique l1 l2 :
  ascending l1 → ascending l2 → l1 ≡ₚ l2 → l1 = l2.
Proof.
  rewrite !ascending_strongly.
  apply StronglySorted_unique_strong. intros; lia.
Qed.

Lemma includes_spec l x : JS.includes l x = true ↔ x ∈ l.
Proof. unfold JS.includes. apply bool_decide_eq_true. Qed.

Lemma filter_out_absent (l : list Z) x : x ∉ l → filter (λ h, h ≠ x) l = l.
Proof.
  induction l as [|y l IH]; [done|].
  rewrite not_elem_of_cons. intros [Hne Hl].
  rewrite filter_cons_True by done. by rewrite IH.
Qed.

Lemma filter_out_present (l : list Z) x :
  NoDup l → x ∈ l → l ≡ₚ x :: filter (λ h, h ≠ x) l.
Proof.
  induction l as [|y l IH]; [by intros _ ?%elem_of_nil|].
  intros [Hy Hnd]%NoDup_cons Hin. rewrite filter_cons.
  destruct (decide (y ≠ x)) as [Hne|Heq].
  - apply elem_of_cons in Hin as [->|Hin]; [done|].
    rewrite (IH Hnd Hin) at 1. apply Permutation_swap.
  - apply dec_stable in Heq as ->. by rewrite filter_out_absent.
Qed.

Lemma sort_has_added (l : list Z) x : x ∈ JS.sort JS.compareFn (l ++ [x]).
Proof.
  rewrite sort_Permutation, elem_of_app, list_elem_of_singleton. by right.
Qed.

Lemma toggleSlot_absent hr prev :
  hr ∉ prev → toggleSlot hr prev = JS.sort JS.compareFn (prev ++ [hr]).
Proof.
  intros Hin. unfold toggleSlot.
  destruct (JS.includes prev hr) eqn:E; [|done].
  by apply includes_spec in E.
Qed.

Lemma toggleSlot_present hr prev :
  hr ∈ prev → toggleSlot hr prev = filter (λ h, h ≠ hr) prev.
Proof.
  intros Hin. unfold toggleSlot.
  by apply includes_spec in Hin as ->.
Qed.

Lemma toggleSlot_ascending hr prev :
  ascending prev → ascending (toggleSlot hr prev).
Proof.
  intros Hasc. destruct (decide (hr ∈ prev)) as [Hin|Hin].
  - rewrite toggleSlot_present by done. by apply filter_ascending.
  - rewrite toggleSlot_absent by done. apply sort_ascending.
    apply NoDup_app. split_and!; [by apply ascending_NoDup| |apply NoDup_singleton].
    intros x Hx ->%list_elem_of_singleton. done.
Qed.

Lemma toggleSlot_involutive hr prev :
  ascending prev → toggleSlot hr (toggleSlot hr prev) = prev.
Proof.
  intros Hasc.
  apply ascending_unique; [by do 2 apply toggleSlot_ascending|done|].
  destruct (decide (hr ∈ prev)) as [Hin|Hin].
  - rewrite (toggleSlot_present hr prev) by done.
    rewrite toggleSlot_absent.
    + rewrite sort_Permutation, <-Permutation_cons_append.
      symmetry. apply filter_out_present; [by apply ascending_NoDup|done].
    + intros [Hne _]%list_elem_of_filter. by apply Hne.
  - rewrite (toggleSlot_absent hr prev) by done.
    rewrite toggleSlot_present by apply sort_has_added.
    rewrite sort_Permutation, filter_app, filter_out_absent by done.
    rewrite filter_cons_False by (intros Hne; by apply Hne).
    by rewrite app_nil_r.
Qed.

End sorting.

(** C9. A toggle keeps the selection strictly ascending (sorted, no
    duplicates): toggling an absent hour adds it, the result being the
    sorted rearrangement of the old selection and the hour; toggling a
    present hour removes it and nothing else; and a click on the grid,
    whatever its hour, keeps the invariant.  The selection need not be
    contiguous: adding 17 to the selection 9 gives 9, 17. *)
Theorem toggleSlot_sorted (hr : Z) (prev : list Z) :
  ascending prev →
  ascending (toggleSlot hr prev)
  ∧ (hr ∉ prev →
     (toggleSlot hr prev ≡ₚ hr :: prev) ∧ hr ∈ toggleSlot hr prev)
  ∧ (hr ∈ prev →
     toggleSlot hr prev = filter (λ h, h ≠ hr) prev
     ∧ (hr ∉ toggleSlot hr prev)
     ∧ ∀ h, h ≠ hr → (h ∈ toggleSlot hr prev ↔ h ∈ prev))
  ∧ (∀ st, selectedSlots st = prev →
       ascending (selectedSlots (handleSlotClick hr st)))
  ∧ toggleSlot 17 [9] = [9; 17].
Proof.
  intros Hasc. split_and!.
  - by apply toggleSlot_ascending.
  - intros Hin. rewrite toggleSlot_absent by done.
    split; [|apply sort_has_added].
    by rewrite sort_Permutation, <-Permutation_cons_append.
  - intros Hin. rewrite toggleSlot_present by done.
    split_and!; [done|..].
    + intros [Hne _]%list_elem_of_filter. by apply Hne.
    + intros h Hne. rewrite list_elem_of_filter. tauto.
  - intros st <-. rewrite handleSlotClick_guard.
    destruct (List.find _ _) as [slot|]; [|done].
    destruct (isSlotSelectable _ slot); [|done].
    simpl. by apply toggleSlot_ascending.
  - by vm_compute.
Qed.

Lemma toggleSlot_sorted_witness :
  ascending [9; 11]
  ∧ ascending (toggleSlot 10 [9; 11])
  ∧ toggleSlot 10 [9; 11] = [9; 10; 11]
  ∧ toggleSlot 9 [9; 11] = [11].
Proof.
  assert (Hasc : ascending [9; 11]).
  { unfold ascending. repeat constructor. }
  split; [exact Hasc|].
  split; [exact (proj1 (toggleSlot_sorted 10 [9; 11] Hasc))|].
  split; by vm_compute.
Defined.

(** C10. On a selection that is strictly ascending, two clicks in a row on
    the same hour give back the state they started from: add-then-remove
    and remove-then-add are both the identity (and the first click of a
    selectable hour does change the selection); a click on an hour whose
    slot is past or lacks the selected features changes nothing. *)
Theorem handleSlotClick_twice (hr : Z) (st : State) :
  ascending (selectedSlots st) →
  handleSlotClick hr (handleSlotClick hr st) = st
  ∧ toggleSlot hr (toggleSlot hr (selectedSlots st)) = selectedSlots st
  ∧ (∀ slot,
       List.find (λ s, hour s =? hr) (timeSlots st) = Some slot →
       isSlotSelectable (selectedFeatures st) slot = true →
       selectedSlots (handleSlotClick hr st)
       = toggleSlot hr (selectedSlots st)
       ∧ selectedSlots (handleSlotClick hr st) ≠ selectedSlots st)
  ∧ (∀ slot,
       List.find (λ s, hour s =? hr) (timeSlots st) = Some slot →
       isPast slot = true
       ∨ isFeatureAvailable (selectedFeatures st) slot = false →
       handleSlotClick hr st = st).
Proof.
  intros Hasc. split_and!.
  - rewrite (handleSlotClick_guard hr st).
    destruct (List.find _ _) as [slot|] eqn:Hfind.
    + destruct (isSlotSelectable _ slot) eqn:Hsel.
      * rewrite handleSlotClick_guard. simpl. rewrite Hfind, Hsel.
        destruct st; unfold setSelectedSlots; simpl in *.
        f_equal. by apply toggleSlot_involutive.
      * rewrite handleSlotClick_guard. by rewrite Hfind, Hsel.
    + rewrite handleSlotClick_guard. by rewrite Hfind.
  - by apply toggleSlot_involutive.
  - intros slot Hfind Hsel. rewrite handleSlotClick_guard, Hfind, Hsel.
    split; [done|]. simpl. intros Heq.
    destruct (decide (hr ∈ selectedSlots st)) as [Hin|Hin].
    + assert (hr ∈ toggleSlot hr (selectedSlots st)) as Hin'
        by (by rewrite Heq).
      rewrite toggleSlot_present, list_elem_of_filter in Hin' by done.
      by destruct Hin' as [Hne _].
    + apply Hin. rewrite <-Heq, toggleSlot_absent by done.
      apply sort_has_added.
  - intros slot Hfind Hno. rewrite handleSlotClick_guard, Hfind.
    unfold isSlotSelectable. by destruct Hno as [-> | ->]; rewrite ?andb_false_r.
Qed.

Lemma handleSlotClick_twice_witness :
  ascending (selectedSlots toggleState)
  ∧ handleSlotClick 10 (handleSlotClick 10 toggleState) = toggleState
  ∧ selectedSlots (handleSlotClick 10 toggleState) = [9; 10; 11].
Proof.
  assert (Hasc : ascending (selectedSlots toggleState)).
  { unfold ascending. simpl. repeat constructor. }
  split; [exact Hasc|].
  split; [exact (proj1 (handleSlotClick_twice 10 toggleState Hasc))|].
  by vm_compute.
Defined.

(** *** The booking interval *)

Lemma daysFromCivil_examples :
  daysFromCivil 1970 1 1 = 0 ∧ daysFromCivil 2000 3 1 = 11017
  ∧ daysFromCivil 2025 1 15 = 20103.
Proof. by vm_compute. Qed.

Section interval.

Local Existing Instance before_total.
Local Existing Instance before_trans.

(** The sorted selection starts with the least selected hour and ends
    with the greatest. *)
Lemma sort_first_last (sel : list Z) :
  sel ≠ [] →
  ∃ lo hi,
    JS.sort JS.compareFn sel !! 0%nat = Some lo
    ∧ JS.sort JS.compareFn sel
        !! (length (JS.sort JS.compareFn sel) - 1)%nat = Some hi
    ∧ lo ∈ sel ∧ hi ∈ sel ∧ ∀ h, h ∈ sel → lo ≤ h ≤ hi.
Proof.
  intros Hne.
  pose proof (sort_le sel) as Hs. pose proof (sort_Permutation sel) as Hp.
  destruct (JS.sort JS.compareFn sel) as [|lo l] eqn:El.
  { by apply Permutation_nil in Hp. }
  destruct (proj2 (last_is_Some (lo :: l))) as [hi Hhi]; [done|].
  exists lo, hi. split; [done|].
  split; [by rewrite Nat.sub_1_r, <-last_lookup|].
  assert (lo ∈ sel) by (rewrite <-Hp; left).
  assert (hi ∈ sel) by (rewrite <-Hp; by apply last_Some_elem_of).
  split_and!; [done..|]. intros h Hh. rewrite <-Hp in Hh. split.
  - apply StronglySorted_inv in Hs as [_ Hlo].
    rewrite Forall_forall in Hlo.
    apply elem_of_cons in Hh as [->|Hh]; [lia|by apply Hlo].
  - apply last_Some in Hhi as [l' El']. rewrite El' in Hs, Hh.
    apply elem_of_app in Hh as [Hh|Hh];
      [|apply list_elem_of_singleton in Hh; lia].
    eapply (StronglySorted_app_1_elem_of _ l' [hi]); [done..|].
    by apply list_elem_of_singleton.
Qed.

End interval.

Lemma length_eqb_0 {A} (l : list A) : (length l =? 0)%nat = false ↔ l ≠ [].
Proof. destruct l; simpl; split; congruence. Qed.

(** What [handleSubmit] posts: for a chosen vehicle, a non-empty selection
    and a session token, the one interval from the least selected hour to
    the greatest plus one, whatever the gaps in between, each set by
    [setHours] on the parsed date. *)
Lemma handleSubmit_begin_interval env st token :
  JS.truthy (vehicleId (formData st)) = true →
  selectedSlots st ≠ [] →
  accessToken env = Some token → JS.truthy token = true →
  ∃ lo hi body,
    handleSubmit_begin env st
    = Awaiting (setError "" (setLoading true st)) token body
    ∧ lo ∈ selectedSlots st ∧ hi ∈ selectedSlots st
    ∧ (∀ h, h ∈ selectedSlots st → lo ≤ h ≤ hi)
    ∧ startTime body
      = setHours (tzOffset env) lo (parseDate (selectedDate (formData st)))
    ∧ endTime body
      = setHours (tzOffset env) (hi + 1)
          (parseDate (selectedDate (formData st))).
Proof.
  intros Hv Hsel Htok Htt.
  destruct (sort_first_last _ Hsel) as (lo & hi & Hlo & Hhi & ? & ? & ?).
  unfold handleSubmit_begin.
  rewrite Hv, (proj2 (length_eqb_0 _) Hsel), Hlo, Hhi, Htok, Htt. simpl.
  eexists lo, hi, _. split; [reflexivity|]. by simpl.
Qed.

(** East of Greenwich (and at UTC) the local day of the parsed date is the
    chosen day: [setHours] gives hour [h] of the chosen date. *)
Lemma setHours_east tz h day :
  0 ≤ tz < 1440 → setHours tz h (parseDate day) = localHourOfDay tz day h.
Proof.
  intros Htz. unfold setHours, localHourOfDay, parseDate, LocalTime, Day.
  do 2 f_equal. unfold msPerMinute, msPerDay.
  rewrite Z.div_add_l by lia. rewrite Z.div_small by lia. lia.
Qed.

(** West of Greenwich the parsed date, UTC midnight, falls on the evening
    before: [setHours] gives hour [h] of the day BEFORE the chosen date. *)
Lemma setHours_west tz h day :
  -1440 < tz < 0 →
  setHours tz h (parseDate day) = localHourOfDay tz (day - 1) h.
Proof.
  intros Htz. unfold setHours, localHourOfDay, parseDate, LocalTime, Day.
  do 2 f_equal. unfold msPerMinute, msPerDay.
  replace (day * 86400000 + tz * 60000)
    with ((day - 1) * 86400000 + (86400000 + tz * 60000)) by lia.
  rewrite Z.div_add_l by lia. rewrite Z.div_small by lia. lia.
Qed.

(** Whatever the time zone, [setHours] sets the local hour and keeps the
    local day. *)
Lemma setHours_local tz h d :
  0 ≤ h < 24 →
  HourFromTime (LocalTime tz (setHours tz h d)) = h
  ∧ Day (LocalTime tz (setHours tz h d)) = Day (LocalTime tz d).
Proof.
  intros Hh. unfold setHours, UTC, LocalTime, HourFromTime.
  set (day := Day (d + tz * msPerMinute)).
  replace (day * msPerDay + h * msPerHour - tz * msPerMinute
           + tz * msPerMinute)
    with (h * msPerHour + day * msPerDay) by lia.
  unfold Day, msPerDay, msPerHour in *.
  rewrite Z.mod_add, Z.div_add by lia.
  rewrite (Z.mod_small (h * 3600000)) by lia.
  rewrite Z.div_mul by lia.
  rewrite (Z.div_small (h * 3600000)) by lia. lia.
Qed.

(** C3 (the code departs from the claim). In a browser whose time zone is
    west of Greenwich, here UTC-05:00, the hours 9, 10, 11 chosen for
    15 January 2025 are posted as the interval from 09:00 to 12:00 local
    time of 14 January (2025-01-14T14:00:00Z to 17:00:00Z), the day before
    the chosen date: the start hour is the least selected hour and the end
    hour the greatest plus one, but not on the chosen date. *)
Theorem handleSubmit_interval_day_before :
  ∃ st' token body,
    handleSubmit_begin westEnv westState = Awaiting st' token body
    ∧ startTime body = localHourOfDay (-300) (daysFromCivil 2025 1 14) 9
    ∧ endTime body = localHourOfDay (-300) (daysFromCivil 2025 1 14) 12
    ∧ startTime body = 1736863200000
    ∧ endTime body = 1736874000000
    ∧ startTime body ≠ localHourOfDay (-300) (daysFromCivil 2025 1 15) 9
    ∧ endTime body ≠ localHourOfDay (-300) (daysFromCivil 2025 1 15) 12.
Proof.
  eexists _, _, _. split; [by vm_compute|].
  simpl. by vm_compute.
Qed.

(** At UTC and east of it the posted interval is on the chosen date. *)
Lemma handleSubmit_interval_east env st token :
  0 ≤ tzOffset env < 1440 →
  JS.truthy (vehicleId (formData st)) = true →
  selectedSlots st ≠ [] →
  accessToken env = Some token → JS.truthy token = true →
  ∃ lo hi st' body,
    handleSubmit_begin env st = Awaiting st' token body
    ∧ lo ∈ selectedSlots st ∧ hi ∈ selectedSlots st
    ∧ (∀ h, h ∈ selectedSlots st → lo ≤ h ≤ hi)
    ∧ startTime body
      = localHourOfDay (tzOffset env) (selectedDate (formData st)) lo
    ∧ endTime body
      = localHourOfDay (tzOffset env) (selectedDate (formData st)) (hi + 1).
Proof.
  intros Htz Hv Hsel Htok Htt.
  destruct (handleSubmit_begin_interval env st token Hv Hsel Htok Htt)
    as (lo & hi & body & Hb & ? & ? & ? & Hs & He).
  exists lo, hi, (setError "" (setLoading true st)), body.
  by rewrite Hs, He, !setHours_east.
Qed.

(** West of it the posted interval is on the day before the chosen
    date. *)
Lemma handleSubmit_interval_west env st token :
  -1440 < tzOffset env < 0 →
  JS.truthy (vehicleId (formData st)) = true →
  selectedSlots st ≠ [] →
  accessToken env = Some token → JS.truthy token = true →
  ∃ lo hi st' body,
    handleSubmit_begin env st = Awaiting st' token body
    ∧ lo ∈ selectedSlots st ∧ hi ∈ selectedSlots st
    ∧ (∀ h, h ∈ selectedSlots st → lo ≤ h ≤ hi)
    ∧ startTime body
      = localHourOfDay (tzOffset env) (selectedDate (formData st) - 1) lo
    ∧ endTime body
      = localHourOfDay (tzOffset env) (selectedDate (formData st) - 1)
          (hi + 1).
Proof.
  intros Htz Hv Hsel Htok Htt.
  destruct (handleSubmit_begin_interval env st token Hv Hsel Htok Htt)
    as (lo & hi & body & Hb & ? & ? & ? & Hs & He).
  exists lo, hi, (setError "" (setLoading true st)), body.
  by rewrite Hs, He, !setHours_west.
Qed.

(** The hours 9 and 17 are posted as 09:00 to 18:00: the hours between
    them, never selected, are inside the interval. *)
Lemma handleSubmit_interval_gap :
  ∃ st' token body,
    handleSubmit_begin openEnv (setSelectedSlots (λ _, [9; 17]) selectedState)
    = Awaiting st' token body
    ∧ startTime body = localHourOfDay 330 (daysFromCivil 2025 1 15) 9
    ∧ endTime body = localHourOfDay 330 (daysFromCivil 2025 1 15) 18.
Proof. eexists _, _, _. split; [by vm_compute|]. simpl. by vm_compute. Qed.

(** *** Submission failures *)

Lemma truthy_false s : JS.truthy s = false ↔ s = "".
Proof. unfold JS.truthy. rewrite negb_false_iff. apply String.eqb_eq. Qed.

Lemma truthy_true s : JS.truthy s = true ↔ s ≠ "".
Proof. unfold JS.truthy. rewrite negb_true_iff. apply String.eqb_neq. Qed.

(** A blocked submission leaves the message and a cleared [loading] flag;
    the earlier updates of the same run are overwritten. *)
Lemma blocked_state msg st :
  handleSubmit_finally
    (setLoading false (setError msg (setError "" (setLoading true st))))
  = setLoading false (setError msg st).
Proof. by destruct st. Qed.

Lemma failed_state r st :
  handleSubmit_finally
    (handleSubmit_catch r (setError "" (setLoading true st)))
  = setLoading false
      (setError
         (match r with
          | AxiosError (Some e) =>
              if JS.truthy e then e else "Failed to create booking"
          | _ => "Failed to create booking"
          end) st).
Proof.
  destruct st, r as [?|[e|]|]; unfold handleSubmit_catch; try done.
  by destruct (JS.truthy e).
Qed.

Lemma handleSubmit_begin_state env st st' token body :
  handleSubmit_begin env st = Awaiting st' token body →
  st' = setError "" (setLoading true st).
Proof.
  unfold handleSubmit_begin. intros H.
  repeat (case_match; try done); by simplify_eq.
Qed.

(** C8. A submission with no vehicle chosen, or with no hour selected,
    only sets a message (and clears [loading]): no request is made and the
    rest of the state is as before.  When the request is made and fails,
    the [error] of the backend's answer becomes the message as it is, when
    there is one; any other failure gives the generic message; and a run
    makes at most one request, so nothing is retried. *)
Theorem handleSubmit_failures (env : Env) (st : State) :
  (vehicleId (formData st) = "" →
   ∀ r, handleSubmit env r st
        = (setLoading false (setError "Please select a vehicle" st), []))
  ∧ (vehicleId (formData st) ≠ "" → selectedSlots st = [] →
     ∀ r, handleSubmit env r st
          = (setLoading false
               (setError "Please select at least one time slot" st), []))
  ∧ (∀ st' token body,
       handleSubmit_begin env st = Awaiting st' token body →
       (∀ e, e ≠ "" →
          handleSubmit env (AxiosError (Some e)) st
          = (setLoading false (setError e st), [HttpPost token body]))
       ∧ (∀ r, r = AxiosError None ∨ r = AxiosError (Some "")
               ∨ r = OtherError →
          handleSubmit env r st
          = (setLoading false (setError "Failed to create booking" st),
             [HttpPost token body])))
  ∧ (∀ r, length (requests (handleSubmit env r st).2) ≤ 1)%nat.
Proof.
  split_and!.
  - intros Hv%truthy_false r. unfold handleSubmit, handleSubmit_begin.
    rewrite Hv. simpl. by rewrite blocked_state.
  - intros Hv%truthy_true Hsel r. unfold handleSubmit, handleSubmit_begin.
    rewrite Hv, Hsel. simpl. by rewrite blocked_state.
  - intros st' token body Hb.
    pose proof (handleSubmit_begin_state _ _ _ _ _ Hb) as ->.
    split.
    + intros e He%truthy_true. unfold handleSubmit. rewrite Hb.
      unfold handleSubmit_settle. by rewrite failed_state, He.
    + intros r Hr. unfold handleSubmit. rewrite Hb.
      by destruct Hr as [->|[->| ->]]; unfold handleSubmit_settle;
        rewrite failed_state.
  - intros r. unfold handleSubmit.
    destruct (handleSubmit_begin env st) as [?|?|st' token body];
      [simpl; lia..|].
    unfold handleSubmit_settle.
    destruct r as [status|?|]; [destruct (status =? 201)|..]; simpl; lia.
Qed.

(** The three outcomes on the modal of [westState]: no vehicle, a backend
    error, and a failure without a backend message. *)
Lemma handleSubmit_failures_examples :
  handleSubmit westEnv (Responded 201) (onVehicleChange "" westState)
  = (setError "Please select a vehicle" (onVehicleChange "" westState), [])
  ∧ (∃ body,
       handleSubmit westEnv (AxiosError (Some "Slot already booked")) westState
       = (setError "Slot already booked" westState,
          [HttpPost "token" body]))
  ∧ (∃ body,
       handleSubmit westEnv OtherError westState
       = (setError "Failed to create booking" westState,
          [HttpPost "token" body])).
Proof. split_and!; [done|by eexists..]. Qed.

(** *** Clearing the selection *)

Lemma onCoveredChange_resets b st : selectedSlots (onCoveredChange b st) = [].
Proof. done. Qed.

Lemma onChargingChange_resets b st :
  selectedSlots (onChargingChange b st) = [].
Proof. done. Qed.

Lemma onVehicleChange_resets v st : selectedSlots (onVehicleChange v st) = [].
Proof. done. Qed.

(** A change of date whose slots load: the state that holds the new slots
    holds an empty selection; the two states before it, the second of them
    rendered while the request is pending, hold the old selection. *)
Lemma changeDate_loaded env value resp st :
  slotsEffectRuns env (onDateChange value st) = true →
  value ≠ selectedDate (formData st) →
  ∃ st1 st2 st3,
    changeDate env value (Some resp) st = [st1; st2; st3]
    ∧ selectedSlots st1 = selectedSlots st
    ∧ selectedSlots st2 = selectedSlots st ∧ loadingSlots st2 = true
    ∧ selectedSlots st3 = [] ∧ loadingSlots st3 = false
    ∧ timeSlots st3 = default [] (resp_slots resp).
Proof.
  intros Hrun Hne. unfold changeDate. rewrite Hrun.
  apply Z.eqb_neq in Hne as ->. simpl. by eexists _, _, _.
Qed.

(** A change of date whose slots fail to load: the selection is the old
    one in every state that follows. *)
Lemma changeDate_failed env value st :
  Forall (λ st', selectedSlots st' = selectedSlots st
                 ∧ selectedDate (formData st') = value)
    (changeDate env value None st).
Proof.
  unfold changeDate. case_match; repeat constructor.
Qed.

(** C7 (the code departs from the claim). The date is changed to
    16 January while hours 9 and 10 are selected, and the request for the
    new slots fails: the selection is still 9, 10 in every state that
    follows, under the new date, during the request and after it; and the
    summary's submit button then posts these hours for the new date.  A
    change of a feature does reset the selection at once. *)
Theorem changeDate_failed_load_keeps_selection :
  let newDate := daysFromCivil 2025 1 16 in
  (λ st, (selectedDate (formData st), loadingSlots st, selectedSlots st))
    <$> changeDate openEnv newDate None selectedState
  = [(newDate, false, [9; 10]); (newDate, true, [9; 10]);
     (newDate, false, [9; 10])]
  ∧ (∃ st3 st' token body,
       last (changeDate openEnv newDate None selectedState) = Some st3
       ∧ handleSubmit_begin openEnv st3 = Awaiting st' token body
       ∧ startTime body = localHourOfDay 330 newDate 9
       ∧ endTime body = localHourOfDay 330 newDate 11)
  ∧ selectedSlots (onCoveredChange true selectedState) = []
  ∧ selectedSlots (onChargingChange true selectedState) = [].
Proof.
  intros newDate. split; [by vm_compute|]. split; [|done].
  eexists _, _, _, _. split; [by vm_compute|].
  split; [by vm_compute|]. simpl. by vm_compute.
Qed.

End ReserveSpotModalSpec.

(** * Properties of the prices *)

Module PricingSpec.

Import PrimFloat Pricing.

Lemma getHourlyRate_surcharged f p : getHourlyRate f p = surchargedRate f p.
Proof.
  unfold getHourlyRate, surchargedRate.
  by destruct (ReserveSpotModal.covered f), (ReserveSpotModal.charging f).
Qed.

(** C2. For every selection of hours, every feature selection and every
    [PricingInfo] of JavaScript numbers, the computed total is the number
    of selected hours multiplied by the hourly rate plus the surcharge of
    each selected feature, which is also what [getHourlyRate] returns, in
    binary64 arithmetic.  In particular the total is linear in the size of
    the selection: it is the product of that size and a rate that does not
    depend on the selection, so selections of one size cost the same.
    Rates 5, 2, 3 with both features give 10 for each selected hour of a
    day, and 30 for the hours 9, 10, 11. *)
Theorem calculateTotalPrice_product :
  (∀ sel f p,
     calculateTotalPrice sel f p
     = (lengthNumber sel * surchargedRate f p)%float
     ∧ calculateTotalPrice sel f p
       = (lengthNumber sel * getHourlyRate f p)%float)
  ∧ (∀ sel1 sel2 f p,
       length sel1 = length sel2 →
       calculateTotalPrice sel1 f p = calculateTotalPrice sel2 f p)
  ∧ (∀ sel,
       (length sel ≤ 24)%nat →
       calculateTotalPrice sel (ReserveSpotModal.mkFeatures true true)
         exampleRates
       = wholeNumber (10 * Z.of_nat (length sel)))
  ∧ calculateTotalPrice [9; 10; 11]%Z (ReserveSpotModal.mkFeatures true true)
      exampleRates
    = 30%float.
Proof.
  split_and!.
  - intros sel f p. rewrite getHourlyRate_surcharged.
    unfold calculateTotalPrice, surchargedRate.
    by destruct (ReserveSpotModal.covered f), (ReserveSpotModal.charging f).
  - intros sel1 sel2 f p Hlen.
    unfold calculateTotalPrice, lengthNumber. by rewrite Hlen.
  - intros sel Hlen. unfold calculateTotalPrice, lengthNumber.
    generalize dependent (length sel). intros n Hn.
    do 25 (destruct n as [|n]; [reflexivity|]). lia.
  - reflexivity.
Qed.

(** The product is rounded once, and so is every sum: the totals of two
    parts of a selection need not add up to the total of the whole.  At
    1.01 an hour six hours cost 6.0600000000000005, one hour and five
    hours 1.01 and 5.05, which add up to 6.06 (the float below the
    former); the modal shows both as 6.06. *)
Lemma calculateTotalPrice_rounds :
  let f := ReserveSpotModal.mkFeatures false false in
  let whole := calculateTotalPrice (seqZ 9 6) f cents in
  let parts :=
    (calculateTotalPrice [9]%Z f cents
     + calculateTotalPrice (seqZ 10 5) f cents)%float in
  (parts <? whole)%float = true ∧ next_up parts = whole.
Proof. by vm_compute. Qed.

End PricingSpec.

(** * Properties of the map page *)

Module MapPageSpec.

Import MapPage.

Local Open Scope nat_scope.

Section Facts.

Context {Coord : Type}.
Variable boundsCenter : @Bounds Coord → @LatLng Coord.
Variable boundsRadiusKm : @Bounds Coord → Coord.

Local Abbreviation State := (@State Coord).
Local Abbreviation Event := (@Event Coord).
Local Abbreviation step := (step boundsCenter boundsRadiusKm).
Local Abbreviation run := (run boundsCenter boundsRadiusKm).
Local Abbreviation elapse := (elapse boundsCenter boundsRadiusKm).
Local Abbreviation boundsQuery := (boundsQuery boundsCenter boundsRadiusKm).

(** *** Cancellation *)

Lemma tracked_begin q (st : State) :
  tracked (nextController st)
    (length (sent (fetchNearbyPlaces_begin q st)))
    (fetchNearbyPlaces_begin q st).
Proof.
  unfold tracked, fetchNearbyPlaces_begin.
  destruct (abortControllerRef st); simpl; (split; [by right|lia]).
Qed.

Lemma tracked_fetch c n0 q (s : State) :
  tracked c n0 s → tracked c n0 (fetchNearbyPlaces_begin q s).
Proof.
  intros [Hc Hn]. unfold tracked, fetchNearbyPlaces_begin.
  destruct (abortControllerRef s) as [c'|] eqn:Href; simpl.
  - split; [left|rewrite length_app; simpl; lia].
    destruct Hc as [Hc|[[= ->] _]]; [by right|left].
  - split; [left|rewrite length_app; simpl; lia].
    by destruct Hc as [Hc|[[=] _]].
Qed.

Lemma tracked_fetches c n0 (qs : list NearbyQuery) (s : State) :
  tracked c n0 s →
  tracked c n0 (foldl (λ s q, fetchNearbyPlaces_begin q s) s qs).
Proof.
  revert s. induction qs as [|q qs IH]; intros s Hs; [done|].
  simpl. by apply IH, tracked_fetch.
Qed.

Lemma elapse_fetches ms (s : State) :
  ∃ qs s0,
    elapse ms s = foldl (λ s q, fetchNearbyPlaces_begin q s) s0 qs
    ∧ aborted s0 = aborted s ∧ abortControllerRef s0 = abortControllerRef s
    ∧ nextController s0 = nextController s ∧ sent s0 = sent s
    ∧ inflight s0 = inflight s ∧ places s0 = places s
    ∧ console s0 = console s.
Proof.
  unfold MapPage.elapse.
  exists
    ((λ tm, boundsQuery (timer_bounds tm))
       <$> filter (λ tm, deadline tm ≤ clock s + ms) (timers s)),
    (setClockTimers (clock s + ms)
       (filter (λ tm, ¬ deadline tm ≤ clock s + ms) (timers s)) s).
  split; [|done].
  generalize (setClockTimers (clock s + ms)
    (filter (λ tm, ¬ deadline tm ≤ clock s + ms) (timers s)) s).
  induction (filter (λ tm, deadline tm ≤ clock s + ms) (timers s))
    as [|tm due IH]; intros s0; [done|].
  simpl. apply IH.
Qed.

Lemma tracked_step c n0 (s : State) (e : Event) :
  tracked c n0 s → tracked c n0 (step s e).
Proof.
  intros Hs. destruct e as [b|q|c' a|ms|]; simpl.
  - destruct Hs as [Hc Hn]. unfold tracked, handleBoundsChange.
    by destruct (debounceTimerRef s).
  - by apply tracked_fetch.
  - destruct Hs as [Hc Hn]. unfold tracked, answer, fetchNearbyPlaces_settle.
    repeat case_match; done.
  - destruct (elapse_fetches ms s)
      as (qs & s0 & -> & Ha & Hr & Hn & Hsent & _).
    apply tracked_fetches. unfold tracked. by rewrite Ha, Hr, Hn, Hsent.
  - destruct Hs as [Hc Hn]. unfold tracked, unmount.
    destruct (debounceTimerRef s), (abortControllerRef s) as [c'|] eqn:Href;
      simpl; rewrite ?Href; simpl; (split; [|done]);
      destruct Hc as [Hc|[Hc ?]]; simplify_eq; first [by left; right
        | by left; left | by left | by right].
Qed.

Lemma tracked_run c n0 evs (s : State) :
  tracked c n0 s → tracked c n0 (run evs s).
Proof.
  revert s. induction evs as [|e evs IH]; intros s Hs; [done|].
  simpl. by apply IH, tracked_step.
Qed.

(** A new request aborts the one before it the moment it is sent. *)
Lemma fetch_aborts_previous c q (s : State) :
  abortControllerRef s = Some c →
  c ∈ aborted (fetchNearbyPlaces_begin q s)
  ∧ abortControllerRef (fetchNearbyPlaces_begin q s)
    = Some (nextController s).
Proof.
  intros Hc. unfold fetchNearbyPlaces_begin. rewrite Hc. simpl.
  split; [left|done].
Qed.

(** A request awaits its answer until the network settles it. *)
Lemma inflight_fetch c q (s : State) :
  c ∈ (inflight s).*1 → c ∈ (inflight (fetchNearbyPlaces_begin q s)).*1.
Proof.
  intros Hc. unfold fetchNearbyPlaces_begin.
  destruct (abortControllerRef s); simpl;
    rewrite fmap_app, elem_of_app; by left.
Qed.

Lemma inflight_step c (s : State) (e : Event) :
  answersOf c [e] = [] →
  c ∈ (inflight s).*1 → c ∈ (inflight (step s e)).*1.
Proof.
  intros He Hc. destruct e as [b|q|c' a|ms|]; simpl.
  - unfold handleBoundsChange. by destruct (debounceTimerRef s).
  - by apply inflight_fetch.
  - assert (c' ≠ c) as Hne.
    { simpl in He. intros ->. by rewrite Nat.eqb_refl in He. }
    unfold answer, fetchNearbyPlaces_settle.
    assert (c ∈ (filter (λ r, r.1 ≠ c') (inflight s)).*1) as Hin.
    { apply list_elem_of_fmap in Hc as ([c0 q] & -> & Hin).
      apply list_elem_of_fmap. exists (c0, q). split; [done|].
      apply list_elem_of_filter. split; [|done]. simpl in *. congruence. }
    repeat case_match; done.
  - destruct (elapse_fetches ms s) as (qs & s0 & -> & _ & _ & _ & _ & Hi & _).
    rewrite <-Hi in Hc. clear Hi. revert s0 Hc.
    induction qs as [|q qs IH]; intros s0 Hc; [done|].
    simpl. by apply IH, inflight_fetch.
  - unfold unmount.
    destruct (debounceTimerRef s); simpl; by destruct (abortControllerRef s).
Qed.

Lemma answersOf_cons c (e : Event) evs :
  answersOf c (e :: evs) = [] →
  answersOf c [e] = [] ∧ answersOf c evs = [].
Proof.
  unfold answersOf. simpl. by case_match.
Qed.

Lemma inflight_run c evs (s : State) :
  answersOf c evs = [] →
  c ∈ (inflight s).*1 → c ∈ (inflight (run evs s)).*1.
Proof.
  revert s. induction evs as [|e evs IH]; intros s He Hc; [done|].
  apply answersOf_cons in He as [He Hevs].
  simpl. by apply IH, inflight_step.
Qed.

(** The answer to a request that awaits it and was not aborted. *)
Lemma answer_live c (s : State) :
  c ∈ (inflight s).*1 → c ∉ aborted s →
  (∀ ps, places (step s (Answered c (Ok ps))) = enhance <$> ps)
  ∧ places (step s (Answered c Failed)) = places s
  ∧ console (step s (Answered c Failed))
    = console s ++ [LogError "Error fetching nearby places"].
Proof.
  intros Hc Ha. simpl. unfold answer, fetchNearbyPlaces_settle.
  rewrite (bool_decide_eq_true_2 _ Hc). simpl.
  by rewrite (bool_decide_eq_false_2 _ Ha).
Qed.

(** C4. A nearby query A is sent, and later, before A is settled, another
    nearby query is sent (by a direct search or by the debounce timer).
    Then A has been aborted, and its answer, whenever it comes and whatever
    the network gives, leaves [places] as it is and logs a plain message,
    not an error; whereas a request that was not aborted sets [places] from
    its answer and logs an error when it fails. *)
Theorem stale_answer_discarded
    (st : State) (qA : NearbyQuery) (evs : list Event) (a : Answer) :
  let cA := nextController st in
  let stA := fetchNearbyPlaces_begin qA st in
  let st' := run evs stA in
  answersOf cA evs = [] →
  length (sent stA) < length (sent st') →
  cA ∈ aborted st'
  ∧ places (step st' (Answered cA a)) = places st'
  ∧ console (step st' (Answered cA a))
    = console st' ++ [Log "Request cancelled"]
  ∧ (∀ c, c ∈ (inflight st').*1 → c ∉ aborted st' →
       (∀ ps, places (step st' (Answered c (Ok ps))) = enhance <$> ps)
       ∧ places (step st' (Answered c Failed)) = places st'
       ∧ console (step st' (Answered c Failed))
         = console st' ++ [LogError "Error fetching nearby places"]).
Proof.
  intros cA stA st' Hnone Hlater.
  assert (tracked cA (length (sent stA)) st') as [Hc Hn].
  { apply tracked_run, tracked_begin. }
  assert (cA ∈ aborted st') as Hab.
  { destruct Hc as [Hc|[_ Hnext]]; [done|lia]. }
  assert (cA ∈ (inflight st').*1) as Hin.
  { apply inflight_run; [done|]. unfold stA, fetchNearbyPlaces_begin.
    destruct (abortControllerRef st); simpl;
      rewrite fmap_app, elem_of_app; right; simpl; by left. }
  split; [done|].
  assert (step st' (Answered cA a)
          = setLoading false (consoleAdd (Log "Request cancelled")
              (setInflight (filter (λ r, r.1 ≠ cA) (inflight st')) st')))
    as ->.
  { simpl. unfold answer, fetchNearbyPlaces_settle.
    rewrite (bool_decide_eq_true_2 _ Hin). simpl.
    by rewrite (bool_decide_eq_true_2 _ Hab). }
  split_and!; [done..|]. intros c. apply answer_live.
Qed.

(** *** Debouncing *)

Lemma filter_none {A} (P : A → Prop) `{!∀ x, Decision (P x)} (l : list A) :
  (∀ x, x ∈ l → ¬ P x) → filter P l = [].
Proof.
  induction l as [|x l IH]; intros Hl; [done|].
  rewrite filter_cons_False by (apply Hl; left).
  apply IH. intros y Hy. apply Hl. by right.
Qed.

(** After a call of [handleBoundsChange] one timeout is pending, the new
    one, due 500 ms from now: the one set before is cleared. *)
Lemma handleBoundsChange_timers b (s : State) :
  timersNamed s →
  timers (handleBoundsChange b s)
  = [mkTimer (nextTimer s) (clock s + 500) b]
  ∧ debounceTimerRef (handleBoundsChange b s) = Some (nextTimer s)
  ∧ clock (handleBoundsChange b s) = clock s
  ∧ sent (handleBoundsChange b s) = sent s.
Proof.
  intros Hs. unfold handleBoundsChange.
  destruct (debounceTimerRef s) as [t|] eqn:Ht; simpl.
  - split; [|done]. rewrite filter_none; [done|].
    intros tm Htm Hne. apply Hs in Htm. congruence.
  - split; [|done]. destruct (timers s) as [|tm l] eqn:Hl; [done|].
    assert (tm ∈ timers s) as Htm%Hs by (rewrite Hl; left). congruence.
Qed.

Lemma elapse_not_due ms (s : State) tm :
  timers s = [tm] → clock s + ms < deadline tm →
  elapse ms s = setClockTimers (clock s + ms) [tm] s.
Proof.
  intros Ht Hlt. unfold MapPage.elapse. rewrite Ht.
  rewrite (filter_cons_False (λ t, deadline t ≤ clock s + ms)) by lia.
  rewrite (filter_cons_True (λ t, ¬ deadline t ≤ clock s + ms)) by lia.
  by rewrite !filter_nil.
Qed.

Lemma elapse_due ms (s : State) tm :
  timers s = [tm] → deadline tm ≤ clock s + ms →
  elapse ms s
  = fetchNearbyPlaces_begin (boundsQuery (timer_bounds tm))
      (setClockTimers (clock s + ms) [] s).
Proof.
  intros Ht Hle. unfold MapPage.elapse. rewrite Ht.
  rewrite (filter_cons_True (λ t, deadline t ≤ clock s + ms)) by lia.
  rewrite (filter_cons_False (λ t, ¬ deadline t ≤ clock s + ms)) by lia.
  by rewrite !filter_nil.
Qed.

Lemma elapse_idle ms (s : State) :
  timers s = [] → elapse ms s = setClockTimers (clock s + ms) [] s.
Proof. intros Ht. unfold MapPage.elapse. by rewrite Ht. Qed.

Lemma sent_fetch q (s : State) :
  sent (fetchNearbyPlaces_begin q s) = sent s ++ [q]
  ∧ timers (fetchNearbyPlaces_begin q s) = timers s.
Proof. unfold fetchNearbyPlaces_begin. by destruct (abortControllerRef s). Qed.

(** A bounds change followed by a pause shorter than the delay sends
    nothing. *)
Lemma quiet_pause b gap (s : State) :
  timersNamed s → gap < 500 →
  timersNamed (elapse gap (handleBoundsChange b s))
  ∧ sent (elapse gap (handleBoundsChange b s)) = sent s.
Proof.
  intros Hs Hgap.
  destruct (handleBoundsChange_timers b s Hs) as (Ht & Hr & Hc & Hsent).
  rewrite (elapse_not_due _ _ _ Ht) by (rewrite Hc; simpl; lia).
  split; [|done]. intros tm Htm.
  change (tm ∈ [mkTimer (nextTimer s) (clock s + 500) b]) in Htm.
  change (debounceTimerRef (handleBoundsChange b s) = Some (timer_id tm)).
  apply list_elem_of_singleton in Htm as ->. exact Hr.
Qed.

(** A bounds change followed by a pause of the delay or more sends the
    query of these bounds, and leaves no timeout pending. *)
Lemma firing_pause b wait (s : State) :
  timersNamed s → 500 ≤ wait →
  sent (elapse wait (handleBoundsChange b s)) = sent s ++ [boundsQuery b]
  ∧ timers (elapse wait (handleBoundsChange b s)) = [].
Proof.
  intros Hs Hwait.
  destruct (handleBoundsChange_timers b s Hs) as (Ht & Hr & Hc & Hsent).
  rewrite (elapse_due _ _ _ Ht) by (rewrite Hc; simpl; lia).
  change (timer_bounds (mkTimer (nextTimer s) (clock s + 500) b)) with b.
  destruct (sent_fetch (boundsQuery b)
    (setClockTimers (clock (handleBoundsChange b s) + wait) []
       (handleBoundsChange b s))) as [-> ->].
  change (sent (setClockTimers ?n ?l ?s0)) with (sent s0).
  by rewrite Hsent.
Qed.

Lemma burst_app (l1 l2 : list (@Bounds Coord * nat)) :
  burst (l1 ++ l2) = burst l1 ++ burst l2.
Proof.
  induction l1 as [|[b g] l1 IH]; [done|]. simpl. by rewrite IH.
Qed.

Lemma quiet_burst (pre : list (@Bounds Coord * nat)) (s : State) :
  timersNamed s → Forall (λ p, p.2 < 500) pre →
  timersNamed (run (burst pre) s) ∧ sent (run (burst pre) s) = sent s.
Proof.
  revert s. induction pre as [|[b g] pre IH]; intros s Hs Hpre; [done|].
  apply Forall_cons in Hpre as [Hg Hpre]. simpl in Hg.
  destruct (quiet_pause b g s Hs Hg) as [Hs' Hsent].
  simpl. destruct (IH _ Hs' Hpre) as [? ->]. done.
Qed.

(** C5. Bounds changes that follow one another by less than 500 ms, the
    last of them followed by 500 ms or more of quiet, send exactly one
    nearby query, the one computed from the bounds of the last change:
    nothing is sent during the burst, each change leaves as the only
    pending timeout its own, due 500 ms later, and no query follows the
    one sent, however long the quiet lasts. *)
Theorem debounce_single_query
    (st : State) (pre : list (@Bounds Coord * nat)) (b : Bounds)
    (wait : nat) :
  timersNamed st →
  Forall (λ p, p.2 < 500) pre →
  500 ≤ wait →
  sent (run (burst pre) st) = sent st
  ∧ timers (handleBoundsChange b (run (burst pre) st))
    = [mkTimer (nextTimer (run (burst pre) st))
         (clock (run (burst pre) st) + 500) b]
  ∧ sent (run (burst (pre ++ [(b, wait)])) st) = sent st ++ [boundsQuery b]
  ∧ ∀ more,
      sent (run (burst (pre ++ [(b, wait)]) ++ [Elapsed more]) st)
      = sent st ++ [boundsQuery b].
Proof.
  intros Hst Hpre Hwait.
  destruct (quiet_burst pre st Hst Hpre) as [Hs' Hsent].
  destruct (firing_pause b wait _ Hs' Hwait) as [Hfire Hnone].
  assert (run (burst (pre ++ [(b, wait)])) st
          = elapse wait (handleBoundsChange b (run (burst pre) st))) as Hrun.
  { rewrite burst_app. unfold MapPage.run. by rewrite foldl_app. }
  split_and!.
  - done.
  - by apply handleBoundsChange_timers.
  - by rewrite Hrun, Hfire, Hsent.
  - intros more. unfold MapPage.run. rewrite foldl_app. simpl.
    fold (run (burst (pre ++ [(b, wait)])) st). rewrite Hrun.
    rewrite (elapse_idle _ _ Hnone). simpl. by rewrite Hfire, Hsent.
Qed.

End Facts.

(** Query A, then query B, then B's answer; A's answer comes last. *)
Lemma stale_answer_discarded_witness :
  let evs := [NearbySearch queryB; Answered 1 (Ok [placeB])] in
  let st' := run midpoint fiveKm evs (fetchNearbyPlaces_begin queryA initial) in
  answersOf 0 evs = []
  ∧ places st' = [enhance placeB]
  ∧ places (step midpoint fiveKm st' (Answered 0 (Ok [placeA])))
    = [enhance placeB].
Proof.
  intros evs st'.
  assert (H1 : answersOf (nextController initial) evs = []) by done.
  assert (H2 : length (sent (fetchNearbyPlaces_begin queryA initial))
               < length (sent st')) by (vm_compute; lia).
  split; [exact H1|]. split; [by vm_compute|].
  etransitivity;
    [exact (proj1 (proj2 (stale_answer_discarded midpoint fiveKm initial
       queryA evs (Ok [placeA]) H1 H2)))|].
  by vm_compute.
Defined.

(** Three bounds changes within 300 ms, then quiet. *)
Lemma debounce_single_query_witness :
  timersNamed initial
  ∧ Forall (λ p, p.2 < 500) [(bounds1, 100); (bounds2, 200)]
  ∧ sent (run midpoint fiveKm
            (burst ([(bounds1, 100); (bounds2, 200)] ++ [(bounds3, 500)]))
            initial)
    = [boundsQuery midpoint fiveKm bounds3].
Proof.
  assert (H1 : timersNamed initial).
  { intros tm Htm. by apply elem_of_nil in Htm. }
  assert (H2 : Forall (λ p : Bounds * nat, p.2 < 500)
                 [(bounds1, 100); (bounds2, 200)]).
  { repeat constructor; simpl; lia. }
  split; [exact H1|]. split; [exact H2|].
  exact (proj1 (proj2 (proj2 (debounce_single_query midpoint fiveKm initial
    [(bounds1, 100); (bounds2, 200)] bounds3 500 H1 H2 (le_n 500))))).
Defined.

End MapPageSpec.

(** * Properties of the map view *)

Module MapViewSpec.

Import MapView.

Local Open Scope nat_scope.

Lemma elem_of_SetAdd s x y : y ∈ SetAdd s x ↔ y ∈ s ∨ y = x.
Proof.
  unfold SetAdd. case_bool_decide.
  - split; [by left|]. by intros [?| ->].
  - by rewrite elem_of_app, list_elem_of_singleton.
Qed.

Lemma elem_of_foldl_SetAdd l acc y :
  y ∈ foldl SetAdd acc l ↔ y ∈ acc ∨ y ∈ l.
Proof.
  revert acc. induction l as [|x l IH]; intros acc; simpl.
  - rewrite elem_of_nil. tauto.
  - rewrite IH, elem_of_SetAdd, elem_of_cons. tauto.
Qed.

Lemma elem_of_SetOf l y : y ∈ SetOf l ↔ y ∈ l.
Proof.
  unfold SetOf. rewrite elem_of_foldl_SetAdd, elem_of_nil. tauto.
Qed.

Lemma elem_of_newIds markers st i :
  i ∈ newIds markers st
  ↔ (i ∉ previousMarkerIdsRef st) ∧ i ∈ id <$> markers.
Proof.
  unfold newIds. by rewrite elem_of_SetOf, list_elem_of_filter, elem_of_SetOf.
Qed.

Lemma indexOf_elem_of l x :
  x ∈ l → ∃ i, indexOf l x = Some i ∧ l !! i = Some x.
Proof.
  intros Hx. unfold indexOf.
  destruct (list_find_elem_of (λ y, y = x) l x Hx eq_refl) as [[i y] Hf].
  rewrite Hf. exists i. split; [done|].
  by apply list_find_Some in Hf as (? & -> & _).
Qed.

(** The overlays of a run of the effect on a map that is ready. *)
Lemma markersEffect_overlays markers st :
  mapReady st = true →
  markersRef (markersEffect markers st)
  = (λ m, mkOverlay m
            (if SetHas (newIds markers st) (id m)
             then PopIn (indexOf (newIds markers st) (id m))
             else NoAnimation)) <$> markers
  ∧ previousMarkerIdsRef (markersEffect markers st) = SetOf (id <$> markers)
  ∧ mapReady (markersEffect markers st) = true.
Proof. intros Hr. unfold markersEffect. by rewrite Hr. Qed.

Lemma markersEffect_isNew markers st o :
  mapReady st = true →
  o ∈ markersRef (markersEffect markers st) →
  markerData o ∈ markers
  ∧ (isNew o = true ↔ id (markerData o) ∉ previousMarkerIdsRef st)
  ∧ (isNew o = true →
     ∃ i, animation o = PopIn (Some i)
          ∧ newIds markers st !! i = Some (id (markerData o))).
Proof.
  intros Hr Ho.
  destruct (markersEffect_overlays markers st Hr) as (Hov & _).
  rewrite Hov in Ho. apply list_elem_of_fmap in Ho as (m & -> & Hm).
  split; [done|]. unfold isNew, SetHas. simpl.
  assert (id m ∈ id <$> markers) as Hid by (by apply list_elem_of_fmap_2).
  case_bool_decide as Hnew; simpl.
  - split.
    + split; [|done]. intros _. by apply elem_of_newIds in Hnew as [? _].
    + intros _. destruct (indexOf_elem_of _ _ Hnew) as (i & -> & Hi).
      by exists i.
  - split; [|done]. split; [done|]. intros Hprev.
    destruct Hnew. by apply elem_of_newIds.
Qed.

(** C6. When the effect runs on a ready map, every marker gets an overlay,
    and an overlay is marked as new, its entrance animation delayed by its
    identifier's index among the new identifiers, iff its identifier is
    absent from the previous set of identifiers.  So when every incoming
    identifier is in the previous set no overlay is marked as new; in
    particular on a second run whose markers' identifiers are among those
    of the first run. *)
Theorem markersEffect_marks_new (markers : list Marker) (st : State) :
  mapReady st = true →
  markerData <$> markersRef (markersEffect markers st) = markers
  ∧ (∀ o, o ∈ markersRef (markersEffect markers st) →
       (isNew o = true ↔ id (markerData o) ∉ previousMarkerIdsRef st)
       ∧ (isNew o = true →
          ∃ i, animation o = PopIn (Some i)
               ∧ newIds markers st !! i = Some (id (markerData o))))
  ∧ ((∀ m, m ∈ markers → id m ∈ previousMarkerIdsRef st) →
     newOverlays (markersEffect markers st) = [])
  ∧ (∀ markers',
       (∀ m, m ∈ markers' → id m ∈ id <$> markers) →
       newOverlays (markersEffect markers' (markersEffect markers st)) = []).
Proof.
  intros Hr.
  assert (Hsub : ∀ ms s, mapReady s = true →
            (∀ m, m ∈ ms → id m ∈ previousMarkerIdsRef s) →
            newOverlays (markersEffect ms s) = []).
  { intros ms s Hs Hall. unfold newOverlays.
    apply MapPageSpec.filter_none. intros o Ho Hnew.
    destruct (markersEffect_isNew ms s o Hs Ho) as (Hm & Hiff & _).
    apply Hiff in Hnew. by apply Hnew, Hall. }
  split_and!.
  - destruct (markersEffect_overlays markers st Hr) as (-> & _).
    rewrite <-list_fmap_compose. simpl. apply list_fmap_id.
  - intros o Ho. by destruct (markersEffect_isNew markers st o Hr Ho) as (_ & ?).
  - by apply Hsub.
  - intros markers' Hall.
    destruct (markersEffect_overlays markers st Hr) as (_ & Hprev & Hr').
    apply Hsub; [done|]. intros m Hm. rewrite Hprev, elem_of_SetOf. auto.
Qed.

Lemma markersEffect_marks_new_witness :
  mapReady ready = true
  ∧ isNew <$> markersRef (markersEffect threeMarkers ready)
    = [true; true; true]
  ∧ newOverlays
      (markersEffect (take 2 threeMarkers) (markersEffect threeMarkers ready))
    = [].
Proof.
  split; [done|]. split; [by vm_compute|].
  apply (proj2 (proj2 (proj2
    (markersEffect_marks_new threeMarkers ready eq_refl)))).
  intros m Hm. apply list_elem_of_fmap_2.
  by eapply subseteq_take.
Defined.

End MapViewSpec.

(** * Further properties of the reservation modal *)

Module ReserveSpotModalMore.

Import ReserveSpotModal ReserveSpotModalSpec.

(** *** Hour labels *)

Lemma hours_of_day h : 0 ≤ h < 24 ↔ h ∈ seqZ 0 24.
Proof. rewrite elem_of_seqZ. lia. Qed.

(** X1. On the hours 0 to 23 the labels of [format12Hour] are pairwise
    distinct; each is the hour of the 12-hour clock, between 1 and 12,
    followed by AM before noon and PM from noon on.  Outside that range
    labels collide: 24 reads as 12 does. *)
Theorem format12Hour_labels :
  (∀ h1 h2, 0 ≤ h1 < 24 → 0 ≤ h2 < 24 →
     format12Hour h1 = format12Hour h2 → h1 = h2)
  ∧ (∀ h, 0 ≤ h < 24 →
       1 ≤ twelve h ≤ 12
       ∧ format12Hour h
         = pretty (twelve h) +:+ (if h <? 12 then " AM" else " PM"))
  ∧ format12Hour 24 = format12Hour 12.
Proof.
  split_and!.
  - assert (Forall (λ h1, Forall (λ h2,
      format12Hour h1 = format12Hour h2 → h1 = h2) (seqZ 0 24)) (seqZ 0 24))
      as Hall by (apply (bool_decide_unpack _); by vm_compute).
    intros h1 h2 Hh1%hours_of_day Hh2%hours_of_day.
    rewrite Forall_forall in Hall. specialize (Hall h1 Hh1).
    rewrite Forall_forall in Hall. by apply Hall.
  - assert (Forall (λ h,
      format12Hour h
      = pretty (twelve h) +:+ (if h <? 12 then " AM" else " PM"))
      (seqZ 0 24)) as Hall by (apply (bool_decide_unpack _); by vm_compute).
    intros h Hh. split.
    + unfold twelve. pose proof (Z.mod_pos_bound h 12).
      destruct (Z.eqb_spec (h `mod` 12) 0); lia.
    + rewrite Forall_forall in Hall. by apply Hall, hours_of_day.
  - by vm_compute.
Qed.

(** *** What a submission needs *)

Lemma handleSubmit_begin_inv env st st' token body :
  handleSubmit_begin env st = Awaiting st' token body →
  vehicleId (formData st) ≠ "" ∧ selectedSlots st ≠ []
  ∧ accessToken env = Some token ∧ token ≠ ""
  ∧ st' = setError "" (setLoading true st).
Proof.
  unfold handleSubmit_begin. intros H.
  destruct (JS.truthy (vehicleId (formData st))) eqn:Hv; [|done].
  destruct (length (selectedSlots st) =? 0)%nat eqn:Hl; [done|].
  simpl in H. repeat (case_match; try done). simplify_eq.
  split_and!; [by apply truthy_true|by apply length_eqb_0|done
              |by apply truthy_true|done].
Qed.

(** X2. Without a session token ([undefined] or empty) a submission makes
    no request, whatever else is chosen; the message it leaves names the
    first thing that is missing: the vehicle, then the hours, then the
    session. *)
Theorem handleSubmit_without_token (env : Env) (r : PostResult) (st : State) :
  accessToken env = None ∨ accessToken env = Some "" →
  handleSubmit env r st
  = (setLoading false
       (setError
          (if decide (vehicleId (formData st) = "") then
             "Please select a vehicle"
           else if decide (selectedSlots st = []) then
             "Please select at least one time slot"
           else "Authentication required. Please sign in again.") st),
     []).
Proof.
  intros Htok. unfold handleSubmit, handleSubmit_begin.
  destruct (decide (vehicleId (formData st) = "")) as [Hv|Hv].
  { apply truthy_false in Hv as ->. simpl. by rewrite blocked_state. }
  apply truthy_true in Hv as ->. simpl.
  destruct (decide (selectedSlots st = [])) as [Hs|Hs].
  { rewrite Hs. simpl. by rewrite blocked_state. }
  rewrite (proj2 (length_eqb_0 _) Hs).
  destruct (sort_first_last _ Hs) as (lo & hi & -> & -> & _).
  by destruct Htok as [-> | ->]; simpl; rewrite blocked_state.
Qed.

Lemma handleSubmit_without_token_witness :
  accessToken (mkEnv true "owner" None 0) = None
  ∧ handleSubmit (mkEnv true "owner" None 0) (Responded 201) westState
    = (setError "Authentication required. Please sign in again." westState,
       []).
Proof.
  split; [done|].
  exact (handleSubmit_without_token (mkEnv true "owner" None 0)
           (Responded 201) westState (or_introl eq_refl)).
Defined.

(** X3. When the request is made and answered: status 201 sets [success],
    leaves no error message, calls [onSuccess] and schedules the closing,
    2000 ms later, after which a further submission makes no request (the
    form holds no vehicle); any other status of a resolved request leaves
    neither a success nor a message.  Either way there was one request and
    [loading] is off. *)
Theorem handleSubmit_responded
    (env : Env) (st st' : State) (token : string) (body : BookingBody) :
  handleSubmit_begin env st = Awaiting st' token body →
  handleSubmit env (Responded 201) st
  = (setLoading false (setSuccess true (setError "" st)),
     [HttpPost token body; OnSuccess; CloseAfter 2000])
  ∧ (∀ status, status ≠ 201 →
       handleSubmit env (Responded status) st
       = (setLoading false (setError "" st), [HttpPost token body]))
  ∧ (∀ today env' r,
       (handleSubmit env' r
          (closeAfterSuccess today (handleSubmit env (Responded 201) st).1)).2
       = []).
Proof.
  intros Hb.
  destruct (handleSubmit_begin_inv _ _ _ _ _ Hb) as (_ & _ & _ & _ & ->).
  split_and!.
  - unfold handleSubmit. rewrite Hb. simpl. by destruct st.
  - intros status Hne. unfold handleSubmit. rewrite Hb. simpl.
    apply Z.eqb_neq in Hne as ->. by destruct st.
  - intros today env' r. unfold handleSubmit at 1.
    unfold handleSubmit_begin. simpl. done.
Qed.

Lemma handleSubmit_responded_witness :
  ∃ body,
    (handleSubmit openEnv (Responded 201) selectedState).2
    = [HttpPost "token" body; OnSuccess; CloseAfter 2000]
    ∧ success (handleSubmit openEnv (Responded 201) selectedState).1 = true.
Proof.
  eexists.
  rewrite (proj1 (handleSubmit_responded openEnv selectedState _ "token" _
                    eq_refl)).
  done.
Defined.

(** *** The booked window and the price *)







(** *** The invariant of the selection *)

Lemma selectionValid_same st st' :
  selectedSlots st' = selectedSlots st → timeSlots st' = timeSlots st →
  selectedFeatures st' = selectedFeatures st →
  selectionValid st → selectionValid st'.
Proof. unfold selectionValid. by intros -> -> ->. Qed.

Lemma selectionValid_empty st : selectedSlots st = [] → selectionValid st.
Proof.
  unfold selectionValid. intros ->. split; [constructor|].
  by intros h ?%elem_of_nil.
Qed.

Lemma elem_of_toggleSlot hr prev h :
  h ∈ toggleSlot hr prev → h = hr ∨ h ∈ prev.
Proof.
  unfold toggleSlot. case_match.
  - intros [_ ?]%list_elem_of_filter. by right.
  - rewrite sort_Permutation, elem_of_app, list_elem_of_singleton. tauto.
Qed.

Lemma submitState_same env st :
  selectedSlots (submitState (handleSubmit_begin env st)) = selectedSlots st
  ∧ timeSlots (submitState (handleSubmit_begin env st)) = timeSlots st
  ∧ selectedFeatures (submitState (handleSubmit_begin env st))
    = selectedFeatures st.
Proof. unfold handleSubmit_begin. by repeat case_match. Qed.

Lemma handleSubmit_settle_same r st :
  selectedSlots (handleSubmit_settle r st).1 = selectedSlots st
  ∧ timeSlots (handleSubmit_settle r st).1 = timeSlots st
  ∧ selectedFeatures (handleSubmit_settle r st).1 = selectedFeatures st.
Proof.
  unfold handleSubmit_settle, handleSubmit_catch. by repeat case_match.
Qed.

(** X5. Whatever the user does and however the requests settle, the
    selection stays strictly ascending and every selected hour is the hour
    of a displayed slot that is not past and has a free spot with the
    features now selected: the handlers keep this, and it holds in every
    state the modal reaches from its initial state. *)
Theorem dispatch_keeps_selection_valid :
  (∀ st a, selectionValid st → selectionValid (dispatch st a))
  ∧ (∀ today actions,
       selectionValid (foldl dispatch (initialState today) actions)).
Proof.
  assert (Hstep : ∀ st a, selectionValid st → selectionValid (dispatch st a)).
  { intros st a Hst. destruct a; simpl.
    - rewrite handleSlotClick_guard.
      destruct (List.find _ _) as [slot|] eqn:Hfind; [|done].
      destruct (isSlotSelectable _ slot) eqn:Hsel; [|done].
      destruct Hst as [Hasc Hall]. split; simpl.
      + by apply toggleSlot_ascending.
      + intros h [->|Hh]%elem_of_toggleSlot; [by exists slot|by apply Hall].
    - by apply selectionValid_empty.
    - by apply selectionValid_empty.
    - by apply selectionValid_empty.
    - by apply (selectionValid_same st).
    - destruct r; by apply (selectionValid_same st).
    - by apply (selectionValid_same st).
    - destruct r; [by apply selectionValid_empty|].
      by apply (selectionValid_same st).
    - destruct (continueDisabled st); by apply (selectionValid_same st).
    - by apply (selectionValid_same st).
    - destruct (submitState_same env st) as (? & ? & ?).
      by apply (selectionValid_same st).
    - destruct (handleSubmit_settle_same r st) as (? & ? & ?).
      by apply (selectionValid_same st).
    - by apply selectionValid_empty.
    - by apply (selectionValid_same st). }
  split; [done|]. intros today actions.
  assert (selectionValid (initialState today)) as Hinit
    by by apply selectionValid_empty.
  revert Hinit. generalize (initialState today).
  induction actions as [|a actions IH]; intros st Hst; [done|].
  simpl. by apply IH, Hstep.
Qed.

(** *** The grid *)

Lemma find_slot (slots : list TimeSlot) slot :
  NoDup (hour <$> slots) → slot ∈ slots →
  List.find (λ s, hour s =? hour slot) slots = Some slot.
Proof.
  induction slots as [|s slots IH]; [by intros _ ?%elem_of_nil|].
  rewrite fmap_cons. intros [Hs Hnd]%NoDup_cons Hin. simpl.
  apply elem_of_cons in Hin as [->|Hin]; [by rewrite Z.eqb_refl|].
  destruct (Z.eqb_spec (hour s) (hour slot)) as [Heq|_]; [|by apply IH].
  destruct Hs. rewrite Heq. by apply list_elem_of_fmap_2.
Qed.

(** X6. The grid and the click handler agree.  When the displayed slots
    have distinct hours and non-negative counts, a button that is enabled
    toggles its hour when clicked, and a button that is disabled although
    the backend flags its slot available would change nothing if
    clicked. *)
Theorem enabled_button_toggles (st : State) (slot : TimeSlot) :
  NoDup (hour <$> timeSlots st) → slot ∈ timeSlots st →
  countsNonNeg slot →
  (isDisabled (selectedFeatures st) slot = false →
   handleSlotClick (hour slot) st
   = setSelectedSlots (toggleSlot (hour slot)) st)
  ∧ (isDisabled (selectedFeatures st) slot = true →
     isAvailable slot = true →
     handleSlotClick (hour slot) st = st).
Proof.
  intros Hnd Hin Hnn.
  rewrite handleSlotClick_guard, (find_slot _ _ Hnd Hin).
  rewrite (isDisabled_selectable _ _ Hnn). split.
  - intros [_ ->]%negb_false_iff%andb_true_iff. done.
  - intros Hd%negb_true_iff Ha. rewrite Ha in Hd. simpl in Hd.
    by rewrite Hd.
Qed.

Lemma enabled_button_toggles_witness :
  let slot := mkTimeSlot 10 3 true false 0 1 0 0 in
  NoDup (hour <$> timeSlots gridState) ∧ slot ∈ timeSlots gridState
  ∧ countsNonNeg slot
  ∧ selectedSlots (handleSlotClick 10 gridState) = [9; 10].
Proof.
  intros slot.
  assert (H1 : NoDup (hour <$> timeSlots gridState))
    by (apply (bool_decide_unpack _); by vm_compute).
  assert (H2 : slot ∈ timeSlots gridState) by (right; left).
  assert (H3 : countsNonNeg slot) by (unfold countsNonNeg; simpl; lia).
  split_and!; [done..|].
  change 10 with (hour slot).
  rewrite (proj1 (enabled_button_toggles gridState slot H1 H2 H3) eq_refl).
  by vm_compute.
Defined.

(** *** After a load *)


End ReserveSpotModalMore.

(** * Further properties of the map page *)

Module MapPageMore.

Import MapPage MapPageSpec.

Local Open Scope nat_scope.

Section Facts.

Context {Coord : Type}.
Variable boundsCenter : @Bounds Coord → @LatLng Coord.
Variable boundsRadiusKm : @Bounds Coord → Coord.
Variable defaultRadiusKm : Coord.

Local Abbreviation State := (@State Coord).
Local Abbreviation Event := (@Event Coord).
Local Abbreviation step := (step boundsCenter boundsRadiusKm).
Local Abbreviation run := (run boundsCenter boundsRadiusKm).
Local Abbreviation elapse := (elapse boundsCenter boundsRadiusKm).
Local Abbreviation boundsQuery := (boundsQuery boundsCenter boundsRadiusKm).

(** *** Debouncing, in full *)

Lemma timersNamed_none (s : State) : timers s = [] → timersNamed s.
Proof. intros Ht tm. rewrite Ht. by intros ?%elem_of_nil. Qed.

(** X8. Of a sequence of bounds changes, each followed by a pause, exactly
    those followed by 500 ms or more of quiet send their query, in order:
    a change is dropped iff the next one comes sooner. *)
Theorem debounce_sends_settled (st : State) (l : list (@Bounds Coord * nat)) :
  timersNamed st →
  sent (run (burst l) st)
  = sent st ++ ((λ p, boundsQuery p.1) <$> filter (λ p, 500 ≤ p.2) l).
Proof.
  revert st. induction l as [|[b gap] l IH]; intros st Hst.
  { simpl. by rewrite app_nil_r. }
  simpl. destruct (decide (500 ≤ gap)) as [Hgap|Hgap].
  - destruct (firing_pause boundsCenter boundsRadiusKm b gap st Hst Hgap)
      as [Hsent Hnone].
    rewrite filter_cons_True by done.
    rewrite IH by by apply timersNamed_none.
    rewrite Hsent, fmap_cons, <-app_assoc. done.
  - destruct (quiet_pause boundsCenter boundsRadiusKm b gap st Hst)
      as [Hst' Hsent]; [lia|].
    rewrite filter_cons_False by done. by rewrite IH, Hsent.
Qed.

(** *** One live request *)

Lemma oneLive_fetch q (s : State) :
  oneLive s → oneLive (fetchNearbyPlaces_begin q s).
Proof.
  intros Hs c. unfold fetchNearbyPlaces_begin.
  destruct (abortControllerRef s) as [c0|] eqn:Href; simpl;
    rewrite fmap_app, elem_of_app; simpl.
  - intros [Hc|Hc%list_elem_of_singleton]; [|right; by rewrite Hc].
    left. destruct (Hs c Hc) as [?|Hc']; [by right|].
    rewrite Href in Hc'. simplify_eq. by left.
  - intros [Hc|Hc%list_elem_of_singleton]; [|right; by rewrite Hc].
    left. destruct (Hs c Hc) as [?|Hc']; [done|].
    by rewrite Href in Hc'.
Qed.

Lemma oneLive_fetches (qs : list NearbyQuery) (s : State) :
  oneLive s → oneLive (foldl (λ s q, fetchNearbyPlaces_begin q s) s qs).
Proof.
  revert s. induction qs as [|q qs IH]; intros s Hs; [done|].
  simpl. by apply IH, oneLive_fetch.
Qed.

Lemma oneLive_step (s : State) (e : Event) : oneLive s → oneLive (step s e).
Proof.
  intros Hs. destruct e as [b|q|c' a|ms|]; simpl.
  - unfold handleBoundsChange. by destruct (debounceTimerRef s).
  - by apply oneLive_fetch.
  - unfold answer. case_bool_decide; [|done].
    assert (oneLive (setInflight (filter (λ r, r.1 ≠ c') (inflight s)) s))
      as Hs'.
    { intros c. simpl.
      intros ([c0 q] & -> & [_ Hin]%list_elem_of_filter)%list_elem_of_fmap.
      apply Hs. apply list_elem_of_fmap. by exists (c0, q). }
    unfold fetchNearbyPlaces_settle. by repeat case_match.
  - destruct (elapse_fetches boundsCenter boundsRadiusKm ms s)
      as (qs & s0 & -> & Ha & Hr & _ & _ & Hi & _).
    apply oneLive_fetches. unfold oneLive. by rewrite Ha, Hr, Hi.
  - unfold unmount.
    destruct (debounceTimerRef s); simpl;
      destruct (abortControllerRef s) as [c0|] eqn:Href; simpl;
      try done; intros c Hc; destruct (Hs c Hc) as [?|Hc'];
      rewrite ?Href in *; simplify_eq; simpl; rewrite ?elem_of_cons; auto.
Qed.

(** X9. At most one request can still set [places]: in every state the
    page reaches from one with no request pending, two requests that await
    their answer and were not aborted are the same request, the one
    [abortControllerRef] names; all the others have been aborted. *)
Theorem one_live_request (st : State) (evs : list Event) :
  inflight st = [] →
  oneLive (run evs st)
  ∧ ∀ c1 c2,
      c1 ∈ (inflight (run evs st)).*1 → c1 ∉ aborted (run evs st) →
      c2 ∈ (inflight (run evs st)).*1 → c2 ∉ aborted (run evs st) →
      c1 = c2 ∧ abortControllerRef (run evs st) = Some c1.
Proof.
  intros Hst.
  assert (oneLive (run evs st)) as Hlive.
  { assert (oneLive st) as Hinit.
    { intros c. rewrite Hst. by intros ?%elem_of_nil. }
    revert Hinit. generalize st.
    induction evs as [|e evs IH]; intros s Hs; [done|].
    simpl. by apply IH, oneLive_step. }
  split; [done|]. intros c1 c2 H1 Ha1 H2 Ha2.
  destruct (Hlive c1 H1) as [?|Hr1]; [done|].
  destruct (Hlive c2 H2) as [?|Hr2]; [done|].
  split; [congruence|done].
Qed.

(** *** Unmounting *)

Lemma halted_unmount_timers (s : State) :
  timersNamed s → timers (unmount s) = [].
Proof.
  intros Hnamed. unfold unmount.
  assert (timers (match debounceTimerRef s with
                  | Some t => clearTimeout t s
                  | None => s
                  end) = []) as Htimers.
  { destruct (debounceTimerRef s) as [t|] eqn:Ht; simpl.
    - apply filter_none. intros tm Htm Hne. apply Hnamed in Htm. congruence.
    - destruct (timers s) as [|tm l] eqn:Hl; [done|].
      assert (tm ∈ timers s) as Htm%Hnamed by (rewrite Hl; left).
      congruence. }
  destruct (debounceTimerRef s); simpl in *;
    by destruct (abortControllerRef s).
Qed.

Lemma halted_unmount (s : State) :
  oneLive s → timersNamed s →
  halted (unmount s) ∧ places (unmount s) = places s
  ∧ sent (unmount s) = sent s.
Proof.
  intros Hlive Hnamed. unfold unmount, halted.
  assert (timers (match debounceTimerRef s with
                  | Some t => clearTimeout t s
                  | None => s
                  end) = []) as Htimers.
  { destruct (debounceTimerRef s) as [t|] eqn:Ht; simpl.
    - apply filter_none. intros tm Htm Hne. apply Hnamed in Htm. congruence.
    - destruct (timers s) as [|tm l] eqn:Hl; [done|].
      assert (tm ∈ timers s) as Htm%Hnamed by (rewrite Hl; left).
      congruence. }
  destruct (debounceTimerRef s); simpl in *;
    destruct (abortControllerRef s) as [c0|] eqn:Href; simpl;
    (split_and!; [done| |done..]); intros c Hc;
    destruct (Hlive c Hc) as [?|Hc']; rewrite ?Href in *; simplify_eq;
    rewrite ?elem_of_cons; auto.
Qed.

Lemma halted_passive (s : State) (e : Event) :
  halted s → passive e →
  halted (step s e) ∧ places (step s e) = places s
  ∧ sent (step s e) = sent s.
Proof.
  intros [Ht Hab] He. destruct e as [|?|c a|ms|]; try done; simpl.
  - unfold answer. case_bool_decide as Hc; [|done].
    unfold fetchNearbyPlaces_settle. simpl.
    rewrite (bool_decide_eq_true_2 _ (Hab c Hc)). simpl.
    split_and!; [|done..]. split; [done|]. intros c'. simpl.
    intros ([c0 q] & -> & [_ Hin]%list_elem_of_filter)%list_elem_of_fmap.
    apply Hab, list_elem_of_fmap. by exists (c0, q).
  - by rewrite (elapse_idle boundsCenter boundsRadiusKm _ _ Ht).
Qed.

Lemma halted_passive_refs (s : State) (e : Event) :
  halted s → passive e →
  aborted (step s e) = aborted s
  ∧ abortControllerRef (step s e) = abortControllerRef s
  ∧ nextController (step s e) = nextController s.
Proof.
  intros [Ht Hab] He. destruct e as [|?|c a|ms|]; try done; simpl.
  - unfold answer. case_bool_decide as Hc; [|done].
    unfold fetchNearbyPlaces_settle. simpl.
    by rewrite (bool_decide_eq_true_2 _ (Hab c Hc)).
  - by rewrite (elapse_idle boundsCenter boundsRadiusKm _ _ Ht).
Qed.

Lemma controllersMade_unmount (s : State) :
  controllersMade s →
  controllersMade (unmount s) ∧ nextController (unmount s) = nextController s.
Proof.
  intros [Hab Href].
  assert (∀ c, c ∈ aborted (unmount s) →
               c ∈ aborted s ∨ abortControllerRef s = Some c) as Hin.
  { intros c. unfold unmount.
    destruct (debounceTimerRef s); simpl;
      destruct (abortControllerRef s); simpl;
      try (rewrite elem_of_cons; intros [->|?]); auto. }
  assert (abortControllerRef (unmount s) = abortControllerRef s
          ∧ nextController (unmount s) = nextController s) as [Hr Hn].
  { unfold unmount.
    destruct (debounceTimerRef s); simpl;
      destruct (abortControllerRef s) eqn:E; simpl; by rewrite ?E. }
  split; [|done]. split; rewrite Hn.
  - intros c [?|?]%Hin; auto.
  - intros c. rewrite Hr. auto.
Qed.

(** X10. The clean-up on unmount cancels what the two references hold and
    nothing else.  Once it has run, on a page whose pending timeout and
    live request are the ones its references name, no answer to a nearby
    request and no time that passes changes [places] or sends a query.
    But a geocoding request that was pending is not cancelled: when its
    coordinates come, after the unmount, the page still sends a nearby
    query around them, on a fresh signal that nothing has aborted. *)
Theorem unmount_cancels_refs_only
    (s : State) (evs : list Event) (coords : @LatLng Coord) :
  oneLive s → timersNamed s → controllersMade s → Forall passive evs →
  let s1 := run evs (unmount s) in
  let s2 := geocoded defaultRadiusKm (Some coords) s1 in
  places s1 = places s
  ∧ sent s1 = sent s
  ∧ sent s2
    = sent s ++ [mkNearbyQuery (lat coords) (lng coords) defaultRadiusKm 50]
  ∧ abortControllerRef s2 = Some (nextController s)
  ∧ nextController s ∈ (inflight s2).*1
  ∧ (nextController s ∉ aborted s2).
Proof.
  intros Hlive Hnamed Hmade Hevs s1 s2.
  destruct (halted_unmount s Hlive Hnamed) as (Hh & Hp & Hs).
  destruct (controllersMade_unmount s Hmade) as [Hm Hn].
  assert (places s1 = places (unmount s) ∧ sent s1 = sent (unmount s)
          ∧ controllersMade s1
          ∧ nextController s1 = nextController (unmount s)) as Hrun.
  { unfold s1. revert Hh Hm. generalize (unmount s).
    induction Hevs as [|e evs He _ IH]; intros s' Hh Hm; [done|].
    destruct (halted_passive s' e Hh He) as (Hh' & Hp' & Hs').
    destruct (halted_passive_refs s' e Hh He) as (Ha' & Hr' & Hn').
    simpl. rewrite <-Hp', <-Hs', <-Hn'. apply IH; [done|].
    unfold controllersMade. by rewrite Ha', Hr', Hn'. }
  destruct Hrun as (Hp1 & Hs1 & [Hab1 Href1] & Hn1).
  rewrite Hn in Hn1. rewrite Hp in Hp1. rewrite Hs in Hs1.
  split_and!; [done..| | | |].
  - unfold s2, geocoded, fetchNearbyPlaces_begin.
    destruct (abortControllerRef s1); simpl; by rewrite Hs1.
  - unfold s2, geocoded, fetchNearbyPlaces_begin.
    destruct (abortControllerRef s1); simpl; by rewrite Hn1.
  - unfold s2, geocoded, fetchNearbyPlaces_begin.
    destruct (abortControllerRef s1); simpl;
      rewrite fmap_app, elem_of_app; right; simpl; rewrite Hn1; by left.
  - unfold s2, geocoded, fetchNearbyPlaces_begin. rewrite <-Hn1.
    destruct (abortControllerRef s1) as [c0|] eqn:Hc0; simpl.
    + rewrite elem_of_cons. intros [Heq|Hin].
      * specialize (Href1 c0 eq_refl). lia.
      * specialize (Hab1 _ Hin). lia.
    + intros Hin. specialize (Hab1 _ Hin). lia.
Qed.

(** *** The loading flag and the route query *)

Lemma fetchNearbyPlaces_send_begin q (st : State) :
  let s := fetchNearbyPlaces_send q st in
  let s0 := fetchNearbyPlaces_begin q st in
  places s = places s0 ∧ sent s = sent s0 ∧ aborted s = aborted s0
  ∧ abortControllerRef s = abortControllerRef s0
  ∧ nextController s = nextController s0 ∧ timers s = timers s0.
Proof.
  intros s s0. unfold s, fetchNearbyPlaces_send.
  destruct (abortControllerRef st) as [c|] eqn:Hc; [|done].
  fold s0. unfold answer. case_bool_decide; [|done].
  unfold fetchNearbyPlaces_settle.
  assert (c ∈ aborted s0) as Hab.
  { unfold s0, fetchNearbyPlaces_begin. rewrite Hc. simpl. by left. }
  simpl. by rewrite (bool_decide_eq_true_2 _ Hab).
Qed.

(** X11. A query that replaces a pending one leaves the page with
    [loading] false although its own request is awaited.  When
    [fetchNearbyPlaces] runs while the request of the controller in
    [abortControllerRef] still awaits its answer, the abort settles that
    request at once: its [catch] logs the cancellation and its [finally]
    sets [loading] to false, after the [setLoading(true)] of the new call.
    The new request is the live one, and its answer sets [places]; what
    the network has for the old one is never seen. *)
Theorem replaced_request_clears_loading
    (st : State) (cA : nat) (qB : NearbyQuery) :
  controllersMade st →
  abortControllerRef st = Some cA → cA ∈ (inflight st).*1 →
  let s := fetchNearbyPlaces_send qB st in
  loading s = false
  ∧ console s = console st ++ [Log "Request cancelled"]
  ∧ places s = places st
  ∧ sent s = sent st ++ [qB]
  ∧ abortControllerRef s = Some (nextController st)
  ∧ nextController st ∈ (inflight s).*1
  ∧ (nextController st ∉ aborted s)
  ∧ (∀ ps, places (answer (nextController st) (Ok ps) s) = enhance <$> ps)
  ∧ (∀ a, answer cA a s = s).
Proof.
  intros [Hmade Href] Hc Hin s.
  pose proof (Href _ Hc) as Hlt.
  assert (s = setLoading false (consoleAdd (Log "Request cancelled")
      (setInflight
         (filter (λ r, r.1 ≠ cA) (inflight st ++ [(nextController st, qB)]))
         (fetchNearbyPlaces_begin qB st)))) as Hs.
  { unfold s, fetchNearbyPlaces_send. rewrite Hc.
    unfold answer, fetchNearbyPlaces_settle, fetchNearbyPlaces_begin.
    rewrite Hc. simpl.
    rewrite bool_decide_eq_true_2
      by (rewrite fmap_app, elem_of_app; by left).
    simpl. rewrite bool_decide_eq_true_2 by by left. done. }
  assert (nextController st ∈ (inflight s).*1) as HB.
  { rewrite Hs. simpl. apply list_elem_of_fmap.
    exists (nextController st, qB). split; [done|].
    apply list_elem_of_filter. split; [simpl; lia|].
    rewrite elem_of_app. right. by left. }
  assert (nextController st ∉ aborted s) as HnB.
  { rewrite Hs. unfold fetchNearbyPlaces_begin. rewrite Hc. simpl.
    rewrite elem_of_cons. intros [Heq|Hab]; [lia|].
    specialize (Hmade _ Hab). lia. }
  assert (cA ∉ (inflight s).*1) as HnA.
  { rewrite Hs. simpl.
    intros ([c0 q] & -> & [Hne _]%list_elem_of_filter)%list_elem_of_fmap.
    by apply Hne. }
  split_and!; try done.
  - by rewrite Hs.
  - rewrite Hs. unfold fetchNearbyPlaces_begin. by rewrite Hc.
  - rewrite Hs. unfold fetchNearbyPlaces_begin. by rewrite Hc.
  - rewrite Hs. unfold fetchNearbyPlaces_begin. by rewrite Hc.
  - rewrite Hs. unfold fetchNearbyPlaces_begin. by rewrite Hc.
  - intros ps. unfold answer. rewrite (bool_decide_eq_true_2 _ HB).
    unfold fetchNearbyPlaces_settle. simpl.
    by rewrite (bool_decide_eq_false_2 _ HnB).
  - intros a. unfold answer. by rewrite (bool_decide_eq_false_2 _ HnA).
Qed.

(** X12. The route query is outside the cancellation: its answer sets
    [places] even when a nearby query was sent after it, and it aborts
    nothing, so the answer of a nearby request that was pending replaces
    the places of the route when it comes later. *)
Theorem route_answer_not_cancelled
    (s : State) (c : nat) (ps psR : list BackendPlace) (q : NearbyQuery) :
  c ∈ (inflight s).*1 → c ∉ aborted s →
  places (fetchPlacesAlongRoute_settle (Ok psR) (fetchNearbyPlaces_begin q s))
  = enhance <$> psR
  ∧ aborted (fetchPlacesAlongRoute_settle (Ok psR) s) = aborted s
  ∧ inflight (fetchPlacesAlongRoute_settle (Ok psR) s) = inflight s
  ∧ places (step (fetchPlacesAlongRoute_settle (Ok psR) s)
              (Answered c (Ok ps)))
    = enhance <$> ps.
Proof.
  intros Hc Hab. split_and!; [done..|].
  simpl. unfold answer, fetchNearbyPlaces_settle. simpl.
  rewrite (bool_decide_eq_true_2 _ Hc). simpl.
  by rewrite (bool_decide_eq_false_2 _ Hab).
Qed.

(** *** One pending timer *)

Lemma oneTimer_named (s : State) : oneTimer s → timersNamed s.
Proof.
  intros [Ht|(tm & Ht & Hr)] tm'; rewrite Ht.
  - by intros ?%elem_of_nil.
  - by intros ->%list_elem_of_singleton.
Qed.

Lemma oneTimer_fetches (qs : list NearbyQuery) (s : State) :
  oneTimer s → oneTimer (foldl (λ s q, fetchNearbyPlaces_begin q s) s qs).
Proof.
  revert s. induction qs as [|q qs IH]; intros s Hs; [done|].
  simpl. apply IH. unfold oneTimer, fetchNearbyPlaces_begin.
  by destruct (abortControllerRef s).
Qed.

Lemma oneTimer_step (s : State) (e : Event) : oneTimer s → oneTimer (step s e).
Proof.
  intros Hs. destruct e as [b|q|c a|ms|]; simpl.
  - destruct (handleBoundsChange_timers b s (oneTimer_named s Hs))
      as (Ht & Hr & _).
    right. eexists. by split.
  - unfold oneTimer, fetchNearbyPlaces_begin.
    by destruct (abortControllerRef s).
  - unfold oneTimer, answer, fetchNearbyPlaces_settle.
    by repeat case_match.
  - destruct Hs as [Ht|(tm & Ht & Hr)].
    + rewrite (elapse_idle boundsCenter boundsRadiusKm _ _ Ht). by left.
    + destruct (decide (deadline tm ≤ clock s + ms)) as [Hd|Hd].
      * rewrite (elapse_due boundsCenter boundsRadiusKm _ _ _ Ht Hd).
        left. unfold fetchNearbyPlaces_begin. by repeat case_match.
      * rewrite (elapse_not_due boundsCenter boundsRadiusKm _ _ _ Ht) by lia.
        right. by exists tm.
  - left. apply halted_unmount_timers. by apply oneTimer_named.
Qed.

(** X20. The page never has two debounce timers pending: in every state
    it reaches from one with no timeout pending there is at most one, the
    one [debounceTimerRef] names, whatever the map, the network and the
    clock do. *)
Theorem one_pending_timer (st : State) (evs : list Event) :
  timers st = [] →
  (length (timers (run evs st)) ≤ 1)
  ∧ ∀ tm, tm ∈ timers (run evs st) →
          debounceTimerRef (run evs st) = Some (timer_id tm).
Proof.
  intros Hst.
  assert (oneTimer (run evs st)) as Hone.
  { assert (oneTimer st) as Hinit by by left.
    revert Hinit. generalize st.
    induction evs as [|e evs IH]; intros s Hs; [done|].
    simpl. by apply IH, oneTimer_step. }
  split; [|by apply oneTimer_named].
  destruct Hone as [->|(tm & -> & _)]; simpl; lia.
Qed.

End Facts.

(** Two bounds changes 100 ms apart: one timer, the second. *)
Lemma one_pending_timer_witness :
  timers initial = []
  ∧ (length (timers (run midpoint fiveKm
              [BoundsSettled bounds1; Elapsed 100; BoundsSettled bounds2]
              initial)) ≤ 1)
  ∧ timer_bounds <$> timers (run midpoint fiveKm
      [BoundsSettled bounds1; Elapsed 100; BoundsSettled bounds2] initial)
    = [bounds2].
Proof.
  split; [done|]. split; [|by vm_compute].
  exact (proj1 (one_pending_timer midpoint fiveKm initial
    [BoundsSettled bounds1; Elapsed 100; BoundsSettled bounds2] eq_refl)).
Defined.

(** Three bounds changes: the first is overtaken, the other two are
    followed by quiet. *)
Lemma debounce_sends_settled_witness :
  timersNamed initial
  ∧ sent (run midpoint fiveKm
            (burst [(bounds1, 100); (bounds2, 600); (bounds3, 500)]) initial)
    = [boundsQuery midpoint fiveKm bounds2;
       boundsQuery midpoint fiveKm bounds3].
Proof.
  assert (H1 : timersNamed initial).
  { intros tm Htm. by apply elem_of_nil in Htm. }
  split; [exact H1|].
  exact (debounce_sends_settled midpoint fiveKm initial
           [(bounds1, 100); (bounds2, 600); (bounds3, 500)] H1).
Defined.

(** Queries A and B sent one after the other: only B is live. *)
Lemma one_live_request_witness :
  inflight initial = []
  ∧ oneLive (run midpoint fiveKm [NearbySearch queryA; NearbySearch queryB]
               initial)
  ∧ inflight (run midpoint fiveKm [NearbySearch queryA; NearbySearch queryB]
                initial)
    = [(0, queryA); (1, queryB)].
Proof.
  split; [done|].
  split; [|done].
  exact (proj1 (one_live_request midpoint fiveKm initial
                  [NearbySearch queryA; NearbySearch queryB] eq_refl)).
Defined.

(** A page with query A pending and a timer set is unmounted; then A's
    answer comes and a second passes, and then the coordinates of a
    geocoding request come. *)
Lemma unmount_cancels_refs_only_witness :
  let s := handleBoundsChange bounds1 (fetchNearbyPlaces_begin queryA initial) in
  let evs := [Answered 0 (Ok [placeA]); Elapsed 1000] in
  let s1 := run midpoint fiveKm evs (unmount s) in
  oneLive s ∧ timersNamed s ∧ controllersMade s ∧ Forall passive evs
  ∧ places s1 = [] ∧ sent s1 = [queryA]
  ∧ sent (geocoded 10%Z (Some (mkLatLng 2%Z 2%Z)) s1) = [queryA; queryB].
Proof.
  intros s evs s1.
  assert (H1 : oneLive s).
  { intros c. simpl. intros ->%list_elem_of_singleton. by right. }
  assert (H2 : timersNamed s).
  { intros tm. simpl. by intros ->%list_elem_of_singleton. }
  assert (H3 : controllersMade s).
  { split; simpl; [by intros c ?%elem_of_nil|]. intros c [= <-]. lia. }
  assert (H4 : Forall passive evs) by (repeat constructor).
  pose proof (unmount_cancels_refs_only midpoint fiveKm 10%Z s evs
                (mkLatLng 2%Z 2%Z) H1 H2 H3 H4) as (Hp & Hs & Hg & _).
  split_and!; [done..|exact Hp|exact Hs|exact Hg].
Defined.

(** Query B is sent while query A awaits its answer. *)
Lemma replaced_request_clears_loading_witness :
  let st := fetchNearbyPlaces_send queryA initial in
  controllersMade st ∧ abortControllerRef st = Some 0
  ∧ 0 ∈ (inflight st).*1
  ∧ loading st = true
  ∧ loading (fetchNearbyPlaces_send queryB st) = false
  ∧ inflight (fetchNearbyPlaces_send queryB st) = [(1, queryB)].
Proof.
  intros st.
  assert (H1 : controllersMade st).
  { split; simpl; [by intros c ?%elem_of_nil|]. intros c [= <-]. lia. }
  assert (H2 : 0 ∈ (inflight st).*1) by (simpl; left).
  split_and!; [done..| |done].
  exact (proj1 (replaced_request_clears_loading st 0 queryB H1 eq_refl H2)).
Defined.

(** A route answer while nearby query A is pending, then A's answer. *)
Lemma route_answer_not_cancelled_witness :
  let s := fetchNearbyPlaces_begin queryA initial in
  0 ∈ (inflight s).*1 ∧ (0 ∉ aborted s)
  ∧ places (step midpoint fiveKm
              (fetchPlacesAlongRoute_settle (Ok [placeB]) s)
              (Answered 0 (Ok [placeA])))
    = [enhance placeA].
Proof.
  intros s.
  assert (H1 : 0 ∈ (inflight s).*1) by (simpl; left).
  assert (H2 : 0 ∉ aborted s) by (simpl; by intros ?%elem_of_nil).
  split_and!; [done..|].
  exact (proj2 (proj2 (proj2 (route_answer_not_cancelled midpoint fiveKm s 0
    [placeA] [placeB] queryB H1 H2)))).
Defined.

End MapPageMore.

(** * Further properties of the map view *)

Module MapViewMore.

Import MapView MapViewSpec.

Local Open Scope nat_scope.

Lemma NoDup_SetAdd s x : NoDup s → NoDup (SetAdd s x).
Proof.
  intros Hs. unfold SetAdd. case_bool_decide as Hx; [done|].
  apply NoDup_app. split_and!; [done| |apply NoDup_singleton].
  intros y Hy ->%list_elem_of_singleton. done.
Qed.

Lemma NoDup_SetOf l : NoDup (SetOf l).
Proof.
  unfold SetOf. assert (NoDup (@nil string)) as Hnil by constructor.
  revert Hnil. generalize (@nil string).
  induction l as [|x l IH]; intros acc Hacc; [done|].
  simpl. by apply IH, NoDup_SetAdd.
Qed.

Lemma foldl_SetAdd_NoDup l acc :
  NoDup (acc ++ l) → foldl SetAdd acc l = acc ++ l.
Proof.
  revert acc. induction l as [|x l IH]; intros acc Hnd.
  { by rewrite app_nil_r. }
  simpl. unfold SetAdd at 2. rewrite bool_decide_eq_false_2.
  - rewrite IH; [by rewrite <-app_assoc|]. by rewrite <-app_assoc.
  - apply NoDup_app in Hnd as (_ & Hnd & _). intros Hx.
    apply (Hnd x Hx). left.
Qed.

Lemma SetOf_NoDup l : NoDup l → SetOf l = l.
Proof. intros Hl. unfold SetOf. by rewrite foldl_SetAdd_NoDup. Qed.

Lemma length_SetOf l : length (SetOf l) ≤ length l.
Proof.
  apply submseteq_length, NoDup_submseteq; [apply NoDup_SetOf|].
  intros x. by rewrite elem_of_SetOf.
Qed.

Lemma indexOf_lookup (l : list string) i x :
  NoDup l → l !! i = Some x → indexOf l x = Some i.
Proof.
  intros Hnd Hi. unfold indexOf.
  assert (list_find (λ y, y = x) l = Some (i, x)) as ->; [|done].
  apply list_find_Some. split_and!; [done..|].
  intros j y Hj Hlt ->.
  pose proof (NoDup_lookup _ _ _ _ Hnd Hi Hj). lia.
Qed.

Lemma filter_all {A} (P : A → Prop) `{!∀ x, Decision (P x)} (l : list A) :
  (∀ x, x ∈ l → P x) → filter P l = l.
Proof.
  induction l as [|x l IH]; intros Hl; [done|].
  rewrite filter_cons_True by (apply Hl; left).
  f_equal. apply IH. intros y Hy. apply Hl. by right.
Qed.

(** X13. After a run of the effect on a ready map the reference holds the
    identifiers of the markers just drawn, each once: it has no
    duplicates, it has an identifier iff a marker has it, it is never
    longer than the list of markers, and when the markers' identifiers are
    distinct it lists them in the markers' order. *)
Theorem markersEffect_remembers_ids (markers : list Marker) (st : State) :
  mapReady st = true →
  NoDup (previousMarkerIdsRef (markersEffect markers st))
  ∧ (∀ i, i ∈ previousMarkerIdsRef (markersEffect markers st)
          ↔ ∃ m, m ∈ markers ∧ id m = i)
  ∧ length (previousMarkerIdsRef (markersEffect markers st)) ≤ length markers
  ∧ (NoDup (id <$> markers) →
     previousMarkerIdsRef (markersEffect markers st) = id <$> markers).
Proof.
  intros Hr.
  destruct (markersEffect_overlays markers st Hr) as (_ & -> & _).
  split_and!.
  - apply NoDup_SetOf.
  - intros i. rewrite elem_of_SetOf, list_elem_of_fmap.
    split; intros (m & ? & ?); by exists m.
  - etransitivity; [apply length_SetOf|]. by rewrite length_fmap.
  - apply SetOf_NoDup.
Qed.

Lemma markersEffect_remembers_ids_witness :
  mapReady ready = true
  ∧ previousMarkerIdsRef
      (markersEffect (threeMarkers ++ take 1 threeMarkers) ready)
    = ["a"; "b"; "c"]
  ∧ NoDup (previousMarkerIdsRef
             (markersEffect (threeMarkers ++ take 1 threeMarkers) ready)).
Proof.
  split; [done|]. split; [by vm_compute|].
  exact (proj1 (markersEffect_remembers_ids
                  (threeMarkers ++ take 1 threeMarkers) ready eq_refl)).
Defined.

Lemma markersEffect_animation markers st o :
  mapReady st = true → o ∈ markersRef (markersEffect markers st) →
  animation o
  = if SetHas (newIds markers st) (id (markerData o))
    then PopIn (indexOf (newIds markers st) (id (markerData o)))
    else NoAnimation.
Proof.
  intros Hr Ho.
  destruct (markersEffect_overlays markers st Hr) as (Hov & _).
  rewrite Hov in Ho. by apply list_elem_of_fmap in Ho as (m & -> & Hm).
Qed.

(** X14. The delays of the entrance animations tell the new places
    apart: two overlays marked as new in a run have the same delay index
    iff they have the same identifier, and every index is below the number
    of new identifiers, itself at most the number of markers. *)
Theorem markersEffect_staggers (markers : list Marker) (st : State) :
  mapReady st = true →
  (∀ o1 o2,
     o1 ∈ markersRef (markersEffect markers st) →
     o2 ∈ markersRef (markersEffect markers st) →
     isNew o1 = true → isNew o2 = true →
     (animation o1 = animation o2
      ↔ id (markerData o1) = id (markerData o2)))
  ∧ (∀ o, o ∈ markersRef (markersEffect markers st) → isNew o = true →
       ∃ i, animation o = PopIn (Some i)
            ∧ i < length (newIds markers st))
  ∧ length (newIds markers st) ≤ length markers.
Proof.
  intros Hr. split_and!.
  - intros o1 o2 Ho1 Ho2 Hn1 Hn2.
    destruct (markersEffect_isNew markers st o1 Hr Ho1) as (_ & _ & H1).
    destruct (markersEffect_isNew markers st o2 Hr Ho2) as (_ & _ & H2).
    destruct (H1 Hn1) as (i1 & Ha1 & Hi1).
    destruct (H2 Hn2) as (i2 & Ha2 & Hi2). split.
    + rewrite Ha1, Ha2. intros [= ->]. congruence.
    + intros Heq.
      rewrite (markersEffect_animation markers st o1 Hr Ho1).
      rewrite (markersEffect_animation markers st o2 Hr Ho2).
      by rewrite Heq.
  - intros o Ho Hn.
    destruct (markersEffect_isNew markers st o Hr Ho) as (_ & _ & H).
    destruct (H Hn) as (i & Ha & Hi). exists i. split; [done|].
    by eapply lookup_lt_Some.
  - unfold newIds. etransitivity; [apply length_SetOf|].
    etransitivity; [apply length_filter|].
    etransitivity; [apply length_SetOf|]. by rewrite length_fmap.
Qed.

Lemma markersEffect_staggers_witness :
  mapReady ready = true
  ∧ animation <$> markersRef
      (markersEffect (threeMarkers ++ take 1 threeMarkers) ready)
    = [PopIn (Some 0); PopIn (Some 1); PopIn (Some 2); PopIn (Some 0)]
  ∧ length (newIds (threeMarkers ++ take 1 threeMarkers) ready) ≤ 4.
Proof.
  split; [done|]. split; [by vm_compute|].
  exact (proj2 (proj2 (markersEffect_staggers
                  (threeMarkers ++ take 1 threeMarkers) ready eq_refl))).
Defined.

(** X15. When none of the incoming identifiers was there before and they
    are pairwise distinct, as on the first answer, every marker is marked
    as new and the k-th marker of the list gets delay index k: the
    markers pop in in list order, 0.05 s apart. *)
Theorem markersEffect_first_run (markers : list Marker) (st : State) :
  mapReady st = true →
  NoDup (id <$> markers) →
  (∀ m, m ∈ markers → id m ∉ previousMarkerIdsRef st) →
  ∀ k m, markers !! k = Some m →
         markersRef (markersEffect markers st) !! k
         = Some (mkOverlay m (PopIn (Some k))).
Proof.
  intros Hr Hnd Hfresh k m Hk.
  destruct (markersEffect_overlays markers st Hr) as (-> & _).
  rewrite list_lookup_fmap, Hk. simpl. do 2 f_equal.
  assert (newIds markers st = id <$> markers) as ->.
  { unfold newIds. rewrite (SetOf_NoDup _ Hnd).
    rewrite filter_all; [by apply SetOf_NoDup|].
    by intros i (m' & -> & Hm')%list_elem_of_fmap; apply Hfresh. }
  unfold SetHas. rewrite bool_decide_eq_true_2.
  - f_equal. apply indexOf_lookup; [done|].
    by rewrite list_lookup_fmap, Hk.
  - apply list_elem_of_fmap_2. by eapply list_elem_of_lookup_2.
Qed.

Lemma markersEffect_first_run_witness :
  mapReady ready = true ∧ NoDup (id <$> threeMarkers)
  ∧ markersRef (markersEffect threeMarkers ready) !! 2
    = Some (mkOverlay (mkMarker "c" "Lot C" (Some 7%Z)) (PopIn (Some 2))).
Proof.
  assert (H2 : NoDup (id <$> threeMarkers))
    by (apply (bool_decide_unpack _); by vm_compute).
  split; [done|]. split; [exact H2|].
  apply (markersEffect_first_run threeMarkers ready eq_refl H2); [|done].
  intros m _. by intros ?%elem_of_nil.
Defined.

End MapViewMore.

(** * Properties of the sign-in route *)

Module AuthSpec.

Import Auth.

Lemma truthy_ne s : JS.truthy s = true ↔ s ≠ "".
Proof. unfold JS.truthy. rewrite negb_true_iff. apply String.eqb_neq. Qed.

(** X16. [authorize] posts at most one request, and never one with an
    empty email or password: without both it throws "Email and password
    are required" at once.  It returns a user only when the backend
    answered with a user and a non-empty token, and then the user carries
    that token and the backend's identifier. *)
Theorem authorize_outcomes (credentials : option Credentials)
    (r : SigninResult) :
  (length (authorize credentials r).2 ≤ 1)%nat
  ∧ (∀ req, req ∈ (authorize credentials r).2 →
       credentials
       = Some (mkCredentials (Some (req_email req)) (Some (req_password req)))
       ∧ req_email req ≠ "" ∧ req_password req ≠ "")
  ∧ ((authorize credentials r).2 = [] →
     (authorize credentials r).1 = Thrown "Email and password are required")
  ∧ (∀ u, (authorize credentials r).1 = Authorized u →
       user_token u ≠ ""
       ∧ ∃ d bu, r = SigninResponded d ∧ data_user d = Some bu
                 ∧ data_token d = Some (user_token u)
                 ∧ user_id u = bu_id bu ∧ user_email u = bu_email bu).
Proof.
  unfold authorize.
  destruct credentials as [[[email|] [password|]]|]; simpl;
    try (split_and!; [lia|by intros ? ?%elem_of_nil|done|done]).
  destruct (JS.truthy email) eqn:He, (JS.truthy password) eqn:Hp; simpl;
    try (split_and!; [lia|by intros ? ?%elem_of_nil|done|done]).
  apply truthy_ne in He, Hp. split_and!; [lia| |done|].
  - by intros req ->%list_elem_of_singleton.
  - intros u Hu. destruct r as [[[bu|] [token|]]|[e|]|]; simpl in Hu;
      try done; [|by destruct (JS.truthy e)].
    destruct (JS.truthy token) eqn:Ht; [|done]. simplify_eq. simpl.
    split; [by apply truthy_ne|]. by eexists _, bu.
Qed.

Lemma tokenAfter_eq t0 u n :
  tokenAfter t0 u n = mkToken (Some (user_id u)) (Some (user_token u)).
Proof.
  induction n as [|n IH]; [done|].
  change (tokenAfter t0 u (S n)) with (jwt (tokenAfter t0 u n) None).
  by rewrite IH.
Qed.

(** X17. The token of a sign-in reaches the session: after the [jwt]
    callback has run at sign-in, and any number of times since, the
    [session] callback gives a session with a user the access token and
    the identifier of the user that [authorize] returned; so that token
    is not empty.  A session without a user is returned as it is. *)
Theorem session_carries_token
    (credentials : option Credentials) (r : SigninResult) (u : User)
    (t0 : Token) (n : nat) (s : Session) (su : SessionUser) :
  (authorize credentials r).1 = Authorized u →
  session_user s = Some su →
  accessToken (session s (tokenAfter t0 u n)) = Some (user_token u)
  ∧ user_token u ≠ ""
  ∧ session_user (session s (tokenAfter t0 u n))
    = Some (mkSessionUser (Some (user_id u)) (su_email su))
  ∧ (∀ t, session (mkSession None (accessToken s)) t
          = mkSession None (accessToken s)).
Proof.
  intros Hu Hs. rewrite tokenAfter_eq. unfold session. rewrite Hs. simpl.
  split_and!; [done| |done..].
  revert Hu. unfold authorize.
  destruct credentials as [[[email|] [password|]]|]; simpl; try done.
  destruct (JS.truthy email && JS.truthy password); simpl; [|done].
  destruct r as [[[bu|] [token|]]|[e|]|]; simpl;
    try done; [|by destruct (JS.truthy e)].
  destruct (JS.truthy token) eqn:Ht; [|done]. intros [= <-]. simpl.
  by apply truthy_ne.
Qed.

Lemma session_carries_token_witness :
  let credentials := Some (mkCredentials (Some "a@b.c") (Some "secret")) in
  let r := SigninResponded
             (mkSigninData (Some (mkBackendUser "7" "a@b.c" "Ann"))
                (Some "jwt-1")) in
  let u := mkUser "7" "a@b.c" "Ann" "jwt-1" in
  let s := mkSession (Some (mkSessionUser None "a@b.c")) None in
  (authorize credentials r).1 = Authorized u
  ∧ session_user s = Some (mkSessionUser None "a@b.c")
  ∧ accessToken (session s (tokenAfter (mkToken None None) u 3))
    = Some "jwt-1".
Proof.
  intros credentials r u s. split; [done|]. split; [done|].
  exact (proj1 (session_carries_token credentials r u (mkToken None None) 3 s
                  (mkSessionUser None "a@b.c") eq_refl eq_refl)).
Defined.

End AuthSpec.

(** * Properties of the login modal *)

Module LoginModalSpec.

Import LoginModal.

Lemma signInStep_spec r st :
  loading (signInStep r st).1 = false
  ∧ isSignUp (signInStep r st).1 = isSignUp st
  ∧ (Close ∈ (signInStep r st).2
     ↔ ∃ e, r = SignInReturned e ∧ opt_truthy e = None)
  ∧ (Close ∈ (signInStep r st).2 →
     Reload ∈ (signInStep r st).2 ∧ error (signInStep r st).1 = error st)
  ∧ (∀ b, PostSignup b ∉ (signInStep r st).2).
Proof.
  unfold signInStep. destruct r as [e|e]; [destruct (opt_truthy e) eqn:He|];
    simpl; split_and!; try done.
  - rewrite list_elem_of_singleton. split; [done|].
    intros (e' & [= <-] & He'). congruence.
  - by rewrite list_elem_of_singleton.
  - intros b. by rewrite list_elem_of_singleton.
  - split; [intros _; by exists e|]. intros _. right; left.
  - intros _. split; [|done]. right; right; left.
  - intros b. rewrite !elem_of_cons, elem_of_nil. by intros [?|[?|[?|?]]].
  - rewrite list_elem_of_singleton. split; [done|]. by intros (e' & ? & _).
  - by rewrite list_elem_of_singleton.
  - intros b. by rewrite list_elem_of_singleton.
Qed.

(** X18. The login modal closes, and reloads the page, only when the
    sign-in returned without an error, after a successful sign-up if one
    was asked for; then no error message is left.  A sign-up that fails
    is not followed by a sign-in attempt, signing in never posts a
    sign-up, and [loading] is off at the end of every run. *)
Theorem login_closes_on_success
    (up : SignupResult) (si : SignInResult) (st : State) :
  loading (handleSubmit up si st).1 = false
  ∧ (Close ∈ (handleSubmit up si st).2
     ↔ (isSignUp st = false ∨ ∃ e, up = SignupResponded true e)
       ∧ ∃ e, si = SignInReturned e ∧ opt_truthy e = None)
  ∧ (Close ∈ (handleSubmit up si st).2 →
     Reload ∈ (handleSubmit up si st).2
     ∧ error (handleSubmit up si st).1 = "")
  ∧ (isSignUp st = true → (∀ e, up ≠ SignupResponded true e) →
     (handleSubmit up si st).2 = [PostSignup (formData st)])
  ∧ (isSignUp st = false → ∀ b, PostSignup b ∉ (handleSubmit up si st).2).
Proof.
  unfold handleSubmit.
  destruct (signInStep_spec si (setError "" (setLoading true st)))
    as (Hl & _ & Hc & Hr & Hp).
  destruct (isSignUp st) eqn:Hs.
  - destruct up as [[|] e|e].
    + destruct (signInStep si _) as [st' effs] eqn:Hstep. simpl in *.
      split_and!; [done| | |by intros _ H; destruct (H e)|done].
      * rewrite elem_of_cons, Hc. split.
        -- intros [?|?]; [done|]. split; [right; by exists e|done].
        -- intros [_ ?]. by right.
      * rewrite !elem_of_cons. intros [?|Hin]; [done|].
        destruct (Hr Hin) as [? ?]. split; [by right|done].
    + simpl. rewrite list_elem_of_singleton. split_and!; try done.
      split; [done|]. by intros [[?|(e' & ?)] _].
    + simpl. rewrite list_elem_of_singleton. split_and!; try done.
      split; [done|]. by intros [[?|(e' & ?)] _].
  - split_and!; [done| |done|done|by intros _].
    rewrite Hc. split; [intros ?; split; [by left|done]|by intros [_ ?]].
Qed.

End LoginModalSpec.

(** * Properties of the modal that edits a parking spot *)

Module EditParkingSpotModalSpec.

Import EditParkingSpotModal.

(** X19. Every run of [handleSubmit] starts with one PATCH request, to
    the endpoint of the spot's kind, and ends with [loading] off.  The
    modal is closed, after [onSuccess], only when the response is ok; any
    other end shows exactly one alert, with a non-empty text, and leaves
    the modal open.  The body of a bike spot never has a [charging] field,
    whatever the form holds; and a form just opened sends the spot's own
    flags, a missing [charging] as false. *)
Theorem edit_spot_submit
    (type : SpotType) (spot : Spot) (fd : FormData) (r : PatchResult) :
  (∃ rest,
     (handleSubmit type spot fd r).1
     = Patch (endpoint type spot) (body type fd) :: rest
     ∧ (∀ u b, Patch u b ∉ rest)
     ∧ (r = PatchOk → rest = [OnSuccess; OnClose])
     ∧ (r ≠ PatchOk →
        (OnClose ∉ rest) ∧ (OnSuccess ∉ rest)
        ∧ ∃ msg, alerts rest = [msg] ∧ msg ≠ ""))
  ∧ (handleSubmit type spot fd r).2 = false
  ∧ body_charging (body bike fd) = None
  ∧ body car (openEffect spot)
    = mkBody (Some (default false (spot_charging spot))) (spot_covered spot).
Proof.
  split_and!; [|done..].
  unfold handleSubmit. simpl.
  destruct r as [|[e|]| |]; simpl; eexists; (split; [reflexivity|]).
  - split_and!; [|done|done].
    intros u b. rewrite !elem_of_cons, elem_of_nil. by intros [?|[?|?]].
  - split_and!; [|done|].
    + intros u b. by rewrite list_elem_of_singleton.
    + intros _. rewrite !list_elem_of_singleton. split_and!; [done..|].
      eexists. split; [reflexivity|].
      destruct (JS.truthy e) eqn:He; [|done].
      by apply AuthSpec.truthy_ne.
  - split_and!; [|done|].
    + intros u b. by rewrite list_elem_of_singleton.
    + intros _. rewrite !list_elem_of_singleton. split_and!; [done..|].
      by eexists.
  - split_and!; [|done|].
    + intros u b. rewrite !elem_of_cons, elem_of_nil. by intros [?|[?|?]].
    + intros _. rewrite !elem_of_cons, !elem_of_nil.
      split_and!; [by intros [?|[?|?]]..|]. by eexists.
  - split_and!; [|done|].
    + intros u b. rewrite !elem_of_cons, elem_of_nil. by intros [?|[?|?]].
    + intros _. rewrite !elem_of_cons, !elem_of_nil.
      split_and!; [by intros [?|[?|?]]..|]. by eexists.
Qed.

End EditParkingSpotModalSpec.
